(** * libbitcoin-system: [secure_random]

    A shallow embedding of [src/crypto/secure_random.cpp] and the
    properties of its sampler, its per-thread entropy source and its
    jitter calculator.

    The translation unit calls into code that is not part of it: the C++
    standard library ([std::random_device],
    [std::uniform_int_distribution], [std::chrono]), Boost.Thread
    ([boost::thread_specific_ptr]) and the [NOEXCEPT] macro.  The standard
    library and the macro are gathered in the class [Toolchain]; every
    theorem holds for every toolchain.  Boost's thread specific pointer is
    written out as the per-thread table [csrng] of the [world]. *)

From stdpp Require Import base numbers option list gmap.

Local Open Scope Z_scope.

(** ** Fixed width integers

    Integers are [Z]; a conversion to a fixed width type is the wrap-around
    C++ defines for it. *)

Definition to_uint (bits z : Z) : Z := z mod 2 ^ bits.
Definition to_uint8 (z : Z) : Z := to_uint 8 z.
Definition to_uint64 (z : Z) : Z := to_uint 64 z.
Definition to_int64 (z : Z) : Z := (z + 2 ^ 63) mod 2 ^ 64 - 2 ^ 63.

Definition is_uint8 (z : Z) : Prop := 0 ≤ z < 2 ^ 8.
Definition is_int64 (z : Z) : Prop := - 2 ^ 63 ≤ z < 2 ^ 63.

(** [minimum<uint8_t>], [maximum<uint8_t>] (std::numeric_limits), [zero]
    and [is_zero] of the math headers. *)
Definition minimum_uint8 : Z := 0.
Definition maximum_uint8 : Z := 255.
Definition zero : Z := 0.
Definition is_zero (z : Z) : bool := bool_decide (z = 0).

(** ** The toolchain

    - [random_device] is the state of one [std::random_device];
    - [uniform_int_distribution bits a b] is one draw of a
      [std::uniform_int_distribution] of a [bits] wide unsigned result type
      constructed with [(a, b)]: the value produced and the device
      afterwards.  The C++ standard promises [a <= i <= b] for the value;
    - [ticks_per_ms] is the number of ticks of
      [std::chrono::steady_clock::duration] in a millisecond (1000000 where
      the steady clock counts nanoseconds);
    - [have_noexcept] tells whether the macro [NOEXCEPT] expands to
      [noexcept] or to nothing. *)
Class Toolchain := {
  random_device : Type;
  uniform_int_distribution : Z → Z → Z → random_device → Z * random_device;
  uniform_int_distribution_range bits a b rd :
    0 ≤ a → a ≤ b → b < 2 ^ bits →
    a ≤ (uniform_int_distribution bits a b rd).1 ≤ b;
  ticks_per_ms : Z;
  ticks_per_ms_pos : 0 < ticks_per_ms;
  have_noexcept : bool
}.

Abbreviation thread_id := nat (only parsing).
Abbreviation handle := positive (only parsing).

(** Ghost record of what happened to entropy sources, oldest first. *)
Inductive event :=
  | Constructed (t : thread_id) (h : handle)
  | Drawn (t : thread_id) (h : handle)
  | Deleted (t : thread_id) (h : handle).

Global Instance event_eq_dec : EqDecision event.
Proof. solve_decision. Defined.

Inductive exception := ResourceExhausted.

Section secure_random.
Context `{TC : Toolchain}.

(** ** The world

    - [csrng]: the function-local static
      [boost::thread_specific_ptr<std::random_device> csrng(deleter)], one
      slot per thread; a thread without an entry reads [nullptr].  The
      construction of the static itself, at the first call in the process,
      is taken to succeed;
    - [devices]: the heap of live [std::random_device] objects;
    - [os]: the answers of the operating system to the coming
      constructions of a [std::random_device], in order: [Some rd] hands
      out a device in state [rd], [None] (and the end of the list) is a
      refusal for want of resources;
    - [trace]: the ghost record of events. *)
Record world := World {
  csrng : gmap thread_id handle;
  devices : gmap handle random_device;
  os : list (option random_device);
  trace : list event
}.

Definition initial (answers : list (option random_device)) : world :=
  {| csrng := ∅; devices := ∅; os := answers; trace := [] |}.

(** How a call ends: it returns, an exception leaves it, the process is
    ended by [std::terminate], or the behaviour is undefined. *)
Inductive outcome (A : Type) :=
  | Returned (a : A) (w : world)
  | Thrown (e : exception) (w : world)
  | Terminated (w : world)
  | Undefined.
Global Arguments Returned {A} a w.
Global Arguments Thrown {A} e w.
Global Arguments Terminated {A} w.
Global Arguments Undefined {A}.

Definition M (A : Type) : Type := world → outcome A.

Definition ret {A} (a : A) : M A := λ w, Returned a w.

Definition bind {A B} (m : M A) (f : A → M B) : M B := λ w,
  match m w with
  | Returned a w' => f a w'
  | Thrown e w' => Thrown e w'
  | Terminated w' => Terminated w'
  | Undefined => Undefined
  end.

Definition undefined {A} : M A := λ _, Undefined.
Definition gets {A} (f : world → A) : M A := λ w, Returned (f w) w.

Notation "'let*' x ':=' m 'in' k" := (bind m (λ x, k))
  (at level 10, x name, m at level 100, k at level 200, only parsing).

(** A function declared [NOEXCEPT]: where the macro is [noexcept], an
    exception that would leave the body ends the process instead. *)
Definition NOEXCEPT {A} (body : M A) : M A := λ w,
  match body w with
  | Thrown e w' => if have_noexcept then Terminated w' else Thrown e w'
  | o => o
  end.

(** [new std::random_device()]: the next answer of the operating system
    decides; the object is placed at an address that holds no live
    device. *)
Definition new_random_device (t : thread_id) : M handle := λ w,
  match os w with
  | Some rd :: rest =>
      let h := fresh (dom (devices w)) in
      Returned h
        {| csrng := csrng w; devices := <[h := rd]> (devices w);
           os := rest; trace := trace w ++ [Constructed t h] |}
  | None :: rest =>
      Thrown ResourceExhausted
        {| csrng := csrng w; devices := devices w; os := rest;
           trace := trace w |}
  | [] => Thrown ResourceExhausted w
  end.

(** The [deleter] lambda of [get_csrng]: [delete csrng]. *)
Definition deleter (t : thread_id) (h : handle) (w : world) : world :=
  {| csrng := csrng w; devices := delete h (devices w); os := os w;
     trace := trace w ++ [Deleted t h] |}.

(** [csrng.get()] on thread [t]. *)
Definition tss_get (t : thread_id) : M (option handle) :=
  gets (λ w, csrng w !! t).

Definition tss_store (t : thread_id) (h : handle) (w : world) : world :=
  {| csrng := <[t := h]> (csrng w); devices := devices w; os := os w;
     trace := trace w |}.

(** [csrng.reset(p)] on thread [t] (Boost.Thread): a current value other
    than [p] is handed to the cleanup function, then [p] is stored. *)
Definition tss_reset (t : thread_id) (p : handle) : M unit := λ w,
  match csrng w !! t with
  | Some old =>
      if decide (old = p) then Returned () w
      else Returned () (tss_store t p (deleter t old w))
  | None => Returned () (tss_store t p w)
  end.

(** The end of thread [t] (Boost.Thread): the cleanup function is called
    on the thread's value, if it has one, and the slot is gone. *)
Definition thread_exit (t : thread_id) (w : world) : world :=
  match csrng w !! t with
  | Some h =>
      let w' := deleter t h w in
      {| csrng := delete t (csrng w'); devices := devices w'; os := os w';
         trace := trace w' |}
  | None => w
  end.

(** [secure_random::get_csrng] *)
Definition get_csrng (t : thread_id) : M handle :=
  NOEXCEPT (
    let* p := tss_get t in
    let* _ := match p with
              | None => let* h := new_random_device t in tss_reset t h
              | Some _ => ret ()
              end in
    let* q := tss_get t in
    match q with
    | Some h => ret h
    | None => undefined
    end).

(** A [std::uniform_int_distribution<uintN_t>]: the width of its result type
    and its parameters. *)
Record distribution := Distribution {
  result_bits : Z;
  param_a : Z;
  param_b : Z
}.

(** [std::uniform_int_distribution<uintN_t> distribution(a, b)]: the
    arguments are converted to the result type; the standard requires
    [a <= b]. *)
Definition construct_distribution (bits a b : Z) : M distribution := λ w,
  if bool_decide (to_uint bits b < to_uint bits a) then Undefined
  else Returned (Distribution bits (to_uint bits a) (to_uint bits b)) w.

(** [distribution(device)] for the device at [h]. *)
Definition draw (t : thread_id) (d : distribution) (h : handle) : M Z := λ w,
  match devices w !! h with
  | Some rd =>
      let r :=
        uniform_int_distribution (result_bits d) (param_a d) (param_b d) rd in
      Returned r.1
        {| csrng := csrng w; devices := <[h := r.2]> (devices w);
           os := os w; trace := trace w ++ [Drawn t h] |}
  | None => Undefined
  end.

(** [secure_random::next(uint8_t begin, uint8_t end)] *)
Definition next_range (t : thread_id) (begin end_ : Z) : M Z :=
  NOEXCEPT (
    let* distribution := construct_distribution 16 begin end_ in
    let* csrng_ref := get_csrng t in
    let* sample := draw t distribution csrng_ref in
    ret (to_uint8 sample)).

(** [secure_random::next()] *)
Definition next (t : thread_id) : M Z :=
  NOEXCEPT (next_range t minimum_uint8 maximum_uint8).

(** [std::transform(first, last, first, op)], as the sequential
    implementations run it: front to back, one call of [op] per
    element. *)
Fixpoint transform {A B} (op : A → M B) (l : list A) : M (list B) :=
  match l with
  | [] => ret []
  | x :: rest =>
      let* y := op x in
      let* ys := transform op rest in
      ret (y :: ys)
  end.

(** [secure_random::fill]: the value is the content of [out] after the
    call. *)
Definition fill (t : thread_id) (out : list Z) : M (list Z) :=
  NOEXCEPT (transform (λ _ : Z, NOEXCEPT (next t)) out).

(** Modelled from the spec: the member template
    [secure_random::next<Type>(Type begin, Type end)], which the header
    declares and [duration] calls at [uint64_t]; its definition is not in
    [secure_random.cpp].  The spec: "[next_in_range(low: T, high: T) -> T]
    for unsigned integer type T: returns a value uniformly distributed
    over [low, high] inclusive", drawn from "the current thread's source
    from the Entropy Source Manager (creating it if absent)". *)
Definition next_uint64 (t : thread_id) (begin end_ : Z) : M Z :=
  NOEXCEPT (
    let* distribution := construct_distribution 64 begin end_ in
    let* csrng_ref := get_csrng t in
    draw t distribution csrng_ref).

(** [secure_random::duration].  A [steady_clock::duration] is its count of
    ticks, an [int64_t]; [ratio] is a [uint8_t].
    - [duration_cast<milliseconds>] and [/] round towards zero;
    - [next<uint64_t>(zero, limit)] converts [limit] to [uint64_t];
    - [max_expire - random_offset] is [int64_t] minus [uint64_t], computed
      in [uint64_t];
    - [milliseconds(expires)] stores the value in the [int64_t] count, and
      the return converts milliseconds to ticks, a multiplication in
      [int64_t] (written with its wrap-around; it does not overflow for an
      expiration that is not negative). *)
Definition duration (t : thread_id) (expiration ratio : Z) : M Z :=
  NOEXCEPT (
    if is_zero ratio then ret expiration else
    let max_expire := expiration `quot` ticks_per_ms in
    let limit := max_expire `quot` ratio in
    if is_zero limit then ret expiration else
    let* random_offset := next_uint64 t zero (to_uint64 limit) in
    let expires := to_uint64 (max_expire - random_offset) in
    ret (to_int64 (to_int64 expires * ticks_per_ms))).


(** ** Worlds a call can produce *)

(** The world after thread [t] constructed a device from the answer [rd]
    and stored it in its slot. *)
Definition constructed_world (t : thread_id) (rd : random_device)
    (rest : list (option random_device)) (w : world) : world :=
  let h := fresh (dom (devices w)) in
  {| csrng := <[t := h]> (csrng w); devices := <[h := rd]> (devices w);
     os := rest; trace := trace w ++ [Constructed t h] |}.

(** The world after the operating system refused a device. *)
Definition refused_world (w : world) : world :=
  {| csrng := csrng w; devices := devices w; os := tail (os w);
     trace := trace w |}.

(** The world after a draw by [t] that left the device at [h] in [rd']. *)
Definition drawn_world (t : thread_id) (h : handle) (rd' : random_device)
    (w : world) : world :=
  {| csrng := csrng w; devices := <[h := rd']> (devices w); os := os w;
     trace := trace w ++ [Drawn t h] |}.

(** How a failed construction leaves a [NOEXCEPT] function. *)
Definition failure {A} (w : world) : outcome A :=
  if have_noexcept then Terminated w else Thrown ResourceExhausted w.

Definition os_refuses (w : world) : Prop :=
  os w = [] ∨ ∃ rest, os w = None :: rest.

Definition os_grants (w : world) : Prop :=
  ∃ rd rest, os w = Some rd :: rest.

(** The calling thread has its source, or the operating system will hand
    one out. *)
Definition source_available (t : thread_id) (w : world) : Prop :=
  is_Some (csrng w !! t) ∨ os_grants w.

(** ** Counting events *)

Fixpoint count (p : event → bool) (tr : list event) : nat :=
  match tr with
  | [] => 0%nat
  | e :: rest => ((if p e then 1 else 0) + count p rest)%nat
  end.

Definition is_event (e0 e : event) : bool := bool_decide (e = e0).

Definition constructs (t : thread_id) (e : event) : bool :=
  match e with Constructed t' _ => bool_decide (t' = t) | _ => false end.

Definition deletes (t : thread_id) (e : event) : bool :=
  match e with Deleted t' _ => bool_decide (t' = t) | _ => false end.

Definition draws_on (t : thread_id) (e : event) : bool :=
  match e with Drawn t' _ => bool_decide (t' = t) | _ => false end.

(** Sources of thread [t] that are alive after [tr]: constructed and not
    deleted. *)
Definition live_sources (t : thread_id) (tr : list event) : nat :=
  (count (constructs t) tr - count (deletes t) tr)%nat.

Definition indicator (P : Prop) `{Decision P} : nat :=
  if decide P then 1%nat else 0%nat.

(** ** Well formed worlds

    Every slot points to a live device, every live device is in the slot
    of exactly one thread, and the record of events agrees with the
    slots. *)
Record wf (w : world) : Prop := {
  wf_live t h : csrng w !! t = Some h → is_Some (devices w !! h);
  wf_owned h : is_Some (devices w !! h) → ∃ t, csrng w !! t = Some h;
  wf_inj t1 t2 h :
    csrng w !! t1 = Some h → csrng w !! t2 = Some h → t1 = t2;
  wf_events t h :
    count (is_event (Constructed t h)) (trace w) =
    (count (is_event (Deleted t h)) (trace w)
     + indicator (csrng w !! t = Some h))%nat;
  wf_thread t :
    count (constructs t) (trace w) =
    (count (deletes t) (trace w) + indicator (is_Some (csrng w !! t)))%nat
}.

(** ** Calls and runs

    The calls a thread can make, the world a call leaves behind when the
    process goes on (it returned, or threw and the caller caught), and
    the worlds a process can reach by calls and thread exits in any
    interleaving. *)
Inductive call :=
  | call_get_csrng
  | call_next
  | call_next_range (begin end_ : Z)
  | call_next_uint64 (begin end_ : Z)
  | call_fill (out : list Z)
  | call_duration (expiration ratio : Z).

Definition world_after {A} (o : outcome A) : option world :=
  match o with
  | Returned _ w | Thrown _ w => Some w
  | Terminated _ | Undefined => None
  end.

Definition run (t : thread_id) (c : call) (w : world) : option world :=
  match c with
  | call_get_csrng => world_after (get_csrng t w)
  | call_next => world_after (next t w)
  | call_next_range b e => world_after (next_range t b e w)
  | call_next_uint64 b e => world_after (next_uint64 t b e w)
  | call_fill out => world_after (fill t out w)
  | call_duration x r => world_after (duration t x r w)
  end.

Inductive step (w : world) : world → Prop :=
  | step_call t c w' : run t c w = Some w' → step w w'
  | step_exit t : step w (thread_exit t w).

Definition reachable (w : world) : Prop :=
  ∃ answers, rtc step (initial answers) w.

(** What a call of thread [t] does to the world, one effect at a time. *)
Inductive effect (t : thread_id) (w : world) : world → Prop :=
  | effect_construct rd rest :
      csrng w !! t = None → os w = Some rd :: rest →
      effect t w (constructed_world t rd rest w)
  | effect_refused :
      csrng w !! t = None → os_refuses w →
      effect t w (refused_world w)
  | effect_draw h rd rd' :
      csrng w !! t = Some h → devices w !! h = Some rd →
      effect t w (drawn_world t h rd' w).

(** A computation of thread [t] is confined when all it does is a
    sequence of such effects. *)
Definition confined_at (t : thread_id) {A} (w : world) (o : outcome A) : Prop :=
  match o with
  | Returned _ w' | Thrown _ w' | Terminated w' => rtc (effect t) w w'
  | Undefined => True
  end.

Definition confined (t : thread_id) {A} (m : M A) : Prop :=
  ∀ w, confined_at t w (m w).

(** The bytes of [n] successive draws over [(0, 255)] from a device, and
    the device afterwards. *)
Fixpoint draws (n : nat) (rd : random_device) : list Z * random_device :=
  match n with
  | O => ([], rd)
  | S k =>
      let r := uniform_int_distribution 16 minimum_uint8 maximum_uint8 rd in
      let rest := draws k r.2 in
      (r.1 :: rest.1, rest.2)
  end.

(** The world after [n] draws by [t] on the device at [h], which was in
    state [rd]. *)
Definition filled_world (t : thread_id) (h : handle) (n : nat)
    (rd : random_device) (w : world) : world :=
  {| csrng := csrng w; devices := <[h := (draws n rd).2]> (devices w);
     os := os w; trace := trace w ++ replicate n (Drawn t h) |}.

(** ** Calls that return, and the draws they cost *)

Definition returned_world {A} (o : outcome A) : option world :=
  match o with
  | Returned _ w => Some w
  | Thrown _ _ | Terminated _ | Undefined => None
  end.

(** The world a call returns in, when it returns. *)
Definition returns (t : thread_id) (c : call) (w : world) : option world :=
  match c with
  | call_get_csrng => returned_world (get_csrng t w)
  | call_next => returned_world (next t w)
  | call_next_range b e => returned_world (next_range t b e w)
  | call_next_uint64 b e => returned_world (next_uint64 t b e w)
  | call_fill out => returned_world (fill t out w)
  | call_duration x r => returned_world (duration t x r w)
  end.

(** Arguments of the parameter types, within the preconditions of the
    distributions: [uint8_t] and [uint64_t] ranges with [begin <= end], a
    [steady_clock::duration] that is not negative, a [uint8_t] ratio. *)
Definition valid_call (c : call) : Prop :=
  match c with
  | call_get_csrng | call_next | call_fill _ => True
  | call_next_range b e => is_uint8 b ∧ is_uint8 e ∧ b ≤ e
  | call_next_uint64 b e => 0 ≤ b ∧ b ≤ e ∧ e < 2 ^ 64
  | call_duration x r => 0 ≤ x < 2 ^ 63 ∧ is_uint8 r
  end.

(** The number of draws the source text of a call makes. *)
Definition entropy_cost (c : call) : nat :=
  match c with
  | call_get_csrng => 0%nat
  | call_next | call_next_range _ _ | call_next_uint64 _ _ => 1%nat
  | call_fill out => length out
  | call_duration x r =>
      if is_zero r then 0%nat
      else if is_zero ((x `quot` ticks_per_ms) `quot` r) then 0%nat
      else 1%nat
  end.

End secure_random.

(** ** A toolchain to run the code on

    The device is the list of raw words it will read; a draw over [(a, b)]
    maps the next word into the range.  The steady clock counts
    nanoseconds. *)
Definition tape_distribution (bits a b : Z) (rd : list Z) : Z * list Z :=
  (a + hd 0 rd `mod` (b - a + 1), tl rd).

Lemma tape_distribution_range bits a b rd :
  0 ≤ a → a ≤ b → b < 2 ^ bits → a ≤ (tape_distribution bits a b rd).1 ≤ b.
Proof.
  intros _ Hab _. unfold tape_distribution. simpl.
  pose proof (Z.mod_pos_bound (hd 0 rd) (b - a + 1)). lia.
Qed.

Definition tape_toolchain (noexcept : bool) : Toolchain :=
  {| random_device := list Z;
     uniform_int_distribution := tape_distribution;
     uniform_int_distribution_range := tape_distribution_range;
     ticks_per_ms := 1000000;
     ticks_per_ms_pos := eq_refl;
     have_noexcept := noexcept |}.

(** * Properties *)

Section properties.
Context `{TC : Toolchain}.
Implicit Types (t : thread_id) (h : handle) (w : world) (tr : list event).

(** ** Conversions *)

Lemma to_uint_id bits z : 0 ≤ z < 2 ^ bits → to_uint bits z = z.
Proof. unfold to_uint. intros Hz. by apply Z.mod_small. Qed.

Lemma to_uint8_id z : is_uint8 z → to_uint8 z = z.
Proof. apply to_uint_id. Qed.

Lemma to_uint64_id z : 0 ≤ z < 2 ^ 64 → to_uint64 z = z.
Proof. apply to_uint_id. Qed.

Lemma to_uint64_range z : 0 ≤ to_uint64 z < 2 ^ 64.
Proof. unfold to_uint64, to_uint. by apply Z.mod_pos_bound. Qed.

Lemma to_int64_id z : is_int64 z → to_int64 z = z.
Proof.
  unfold is_int64, to_int64. intros Hz.
  rewrite Z.mod_small; lia.
Qed.

Lemma is_zero_true z : is_zero z = true ↔ z = 0.
Proof. unfold is_zero. apply bool_decide_eq_true. Qed.

Lemma is_zero_false z : is_zero z = false ↔ z ≠ 0.
Proof. unfold is_zero. apply bool_decide_eq_false. Qed.

(** ** The [NOEXCEPT] boundary *)

Lemma NOEXCEPT_Returned {A} (m : M A) w a w' :
  m w = Returned a w' → NOEXCEPT m w = Returned a w'.
Proof. unfold NOEXCEPT. by intros ->. Qed.

Lemma NOEXCEPT_Thrown {A} (m : M A) w e w' :
  m w = Thrown e w' → NOEXCEPT m w = failure w'.
Proof. unfold NOEXCEPT, failure. intros ->. by destruct e. Qed.

Lemma NOEXCEPT_failure {A} (m : M A) w w' :
  m w = failure w' → NOEXCEPT m w = failure w'.
Proof. unfold NOEXCEPT, failure. intros ->. by destruct have_noexcept. Qed.

Lemma bind_Returned {A B} (m : M A) (f : A → M B) w a w' :
  m w = Returned a w' → bind m f w = f a w'.
Proof. unfold bind. by intros ->. Qed.

Lemma bind_failure {A B} (m : M A) (f : A → M B) w w' :
  m w = failure w' → bind m f w = failure w'.
Proof. unfold bind, failure. intros ->. by destruct have_noexcept. Qed.

Lemma failure_not_Returned {A} w (a : A) w' : failure w ≠ Returned a w'.
Proof. unfold failure. by destruct have_noexcept. Qed.

(** ** [get_csrng] *)

Lemma refused_world_nil w : os w = [] → refused_world w = w.
Proof. destruct w as [c d o tr]. simpl. by intros ->. Qed.

(** The thread has a source: it is handed back and nothing changes. *)
Lemma get_csrng_reuse t h w :
  csrng w !! t = Some h → get_csrng t w = Returned h w.
Proof.
  intros Hslot. apply NOEXCEPT_Returned.
  unfold bind, tss_get, gets, ret. rewrite Hslot. simpl. by rewrite Hslot.
Qed.

(** The thread has none and the operating system grants one. *)
Lemma get_csrng_create t rd rest w :
  csrng w !! t = None → os w = Some rd :: rest →
  get_csrng t w =
    Returned (fresh (dom (devices w))) (constructed_world t rd rest w).
Proof.
  intros Hslot Hos. apply NOEXCEPT_Returned.
  unfold bind, tss_get, gets, ret, new_random_device, tss_reset.
  rewrite Hslot, Hos. simpl. rewrite Hslot. simpl.
  unfold tss_store. simpl. by rewrite lookup_insert_eq.
Qed.

(** The thread has none and the operating system refuses. *)
Lemma get_csrng_refused t w :
  csrng w !! t = None → os_refuses w →
  get_csrng t w = failure (refused_world w).
Proof.
  intros Hslot Hos. unfold get_csrng.
  apply NOEXCEPT_Thrown with (e := ResourceExhausted).
  unfold bind, tss_get, gets, ret, new_random_device. rewrite Hslot.
  destruct Hos as [Hos | [rest Hos]]; rewrite Hos.
  - by rewrite refused_world_nil.
  - unfold refused_world. by rewrite Hos.
Qed.

Lemma construct_distribution_Returned bits a b w :
  0 ≤ a → a ≤ b → b < 2 ^ bits →
  construct_distribution bits a b w = Returned (Distribution bits a b) w.
Proof.
  intros Ha Hab Hb. unfold construct_distribution.
  rewrite !to_uint_id by lia. by rewrite bool_decide_eq_false_2 by lia.
Qed.

Lemma draw_Returned t bits a b h rd w :
  devices w !! h = Some rd →
  draw t (Distribution bits a b) h w =
    Returned (uniform_int_distribution bits a b rd).1
      (drawn_world t h (uniform_int_distribution bits a b rd).2 w).
Proof. intros Hdev. unfold draw. by rewrite Hdev. Qed.

(** ** Counting *)

Ltac count_cases :=
  repeat case_decide; repeat case_bool_decide; simplify_eq;
  first [ lia | exfalso; by eapply is_Some_None | exfalso; by eauto ].

Lemma count_app p tr1 tr2 :
  count p (tr1 ++ tr2) = (count p tr1 + count p tr2)%nat.
Proof. induction tr1 as [|e tr1 IH]; simpl; [done | rewrite IH; lia]. Qed.

Lemma count_snoc p tr e :
  count p (tr ++ [e]) = (count p tr + if p e then 1 else 0)%nat.
Proof. rewrite count_app. simpl. lia. Qed.

(** ** Well formed worlds *)

Lemma fresh_handle_unused w : devices w !! fresh (dom (devices w)) = None.
Proof. apply not_elem_of_dom, is_fresh. Qed.

Lemma wf_initial answers : wf (initial answers).
Proof.
  split; simpl; intros *; rewrite ?lookup_empty; done.
Qed.

Lemma wf_constructed t rd rest w :
  wf w → csrng w !! t = None → wf (constructed_world t rd rest w).
Proof.
  intros Hwf Hslot. pose proof (fresh_handle_unused w) as Hfresh.
  unfold constructed_world. set (h0 := fresh (dom (devices w))) in *.
  split; simpl.
  - intros t' h'. destruct (decide (t' = t)) as [-> | Hne].
    + rewrite lookup_insert_eq. intros [= <-]. by rewrite lookup_insert_eq.
    + rewrite lookup_insert_ne by done. intros Hs.
      destruct (wf_live w Hwf _ _ Hs) as [rd' Hrd'].
      rewrite lookup_insert_ne by congruence. eauto.
  - intros h'. destruct (decide (h' = h0)) as [-> | Hne].
    + intros _. exists t. by rewrite lookup_insert_eq.
    + rewrite lookup_insert_ne by done. intros Hs.
      destruct (wf_owned w Hwf _ Hs) as [t' Ht']. exists t'.
      rewrite lookup_insert_ne by congruence. done.
  - intros t1 t2 h'.
    destruct (decide (t1 = t)) as [-> | Hne1];
      destruct (decide (t2 = t)) as [-> | Hne2];
      rewrite ?lookup_insert_eq, ?lookup_insert_ne by done; try done.
    + intros [= <-] Hs. destruct (wf_live w Hwf _ _ Hs). congruence.
    + intros Hs [= <-]. destruct (wf_live w Hwf _ _ Hs). congruence.
    + apply (wf_inj w Hwf).
  - intros t' h'. rewrite count_snoc, count_snoc. simpl.
    rewrite (wf_events w Hwf t' h'). unfold is_event, indicator.
    destruct (decide (t' = t)) as [-> | Hne].
    + rewrite lookup_insert_eq, Hslot.
      count_cases.
    + rewrite lookup_insert_ne by done.
      count_cases.
  - intros t'. rewrite count_snoc, count_snoc. simpl.
    rewrite (wf_thread w Hwf t'). unfold indicator.
    destruct (decide (t' = t)) as [-> | Hne].
    + rewrite lookup_insert_eq, Hslot.
      count_cases.
    + rewrite lookup_insert_ne by done.
      count_cases.
Qed.

Lemma wf_refused w : wf w → wf (refused_world w).
Proof. intros [H1 H2 H3 H4 H5]. by split. Qed.

Lemma wf_drawn t h rd' w :
  wf w → csrng w !! t = Some h → wf (drawn_world t h rd' w).
Proof.
  intros Hwf Hslot. destruct (wf_live w Hwf _ _ Hslot) as [rd Hrd].
  assert (Hsame : ∀ h', is_Some (<[h := rd']> (devices w) !! h')
                        ↔ is_Some (devices w !! h')).
  { intros h'. destruct (decide (h' = h)) as [-> | Hne].
    - rewrite lookup_insert_eq, Hrd. split; eauto.
    - by rewrite lookup_insert_ne. }
  split; simpl.
  - intros t' h' Hs. apply Hsame. by eapply wf_live.
  - intros h' Hs. apply Hsame in Hs. by eapply wf_owned.
  - apply (wf_inj w Hwf).
  - intros t' h'. rewrite !count_snoc. simpl.
    rewrite (wf_events w Hwf t' h'). unfold is_event.
    count_cases.
  - intros t'. rewrite !count_snoc. simpl.
    rewrite (wf_thread w Hwf t'). lia.
Qed.

Lemma wf_thread_exit t w : wf w → wf (thread_exit t w).
Proof.
  intros Hwf. unfold thread_exit.
  destruct (csrng w !! t) as [h|] eqn:Hslot; [| done].
  split; simpl.
  - intros t' h'. destruct (decide (t' = t)) as [-> | Hne].
    + by rewrite lookup_delete_eq.
    + rewrite lookup_delete_ne by done. intros Hs.
      rewrite lookup_delete_ne.
      * by eapply wf_live.
      * intros <-. apply Hne. by eapply (wf_inj w Hwf).
  - intros h'. destruct (decide (h' = h)) as [-> | Hne].
    + rewrite lookup_delete_eq. by intros [? ?].
    + rewrite lookup_delete_ne by done. intros Hs.
      destruct (wf_owned w Hwf _ Hs) as [t' Ht']. exists t'.
      rewrite lookup_delete_ne; [done | congruence].
  - intros t1 t2 h'.
    destruct (decide (t1 = t)) as [-> | Hne1];
      [by rewrite lookup_delete_eq |].
    destruct (decide (t2 = t)) as [-> | Hne2];
      [by rewrite (lookup_delete_eq _ t) |].
    rewrite !lookup_delete_ne by done. apply (wf_inj w Hwf).
  - intros t' h'. rewrite !count_snoc. simpl.
    rewrite (wf_events w Hwf t' h'). unfold is_event, indicator.
    destruct (decide (t' = t)) as [-> | Hne].
    + rewrite lookup_delete_eq, Hslot.
      count_cases.
    + rewrite lookup_delete_ne by done.
      count_cases.
  - intros t'. rewrite !count_snoc. simpl.
    rewrite (wf_thread w Hwf t'). unfold indicator.
    destruct (decide (t' = t)) as [-> | Hne].
    + rewrite lookup_delete_eq, Hslot.
      count_cases.
    + rewrite lookup_delete_ne by done.
      count_cases.
Qed.

Lemma wf_effect t w w' : effect t w w' → wf w → wf w'.
Proof.
  intros [rd rest Hslot Hos | Hslot Hos | h rd rd' Hslot Hdev] Hwf.
  - by apply wf_constructed.
  - by apply wf_refused.
  - by apply wf_drawn.
Qed.

Lemma wf_effects t w w' : rtc (effect t) w w' → wf w → wf w'.
Proof. induction 1; eauto using wf_effect. Qed.

(** ** What the effects of one thread leave alone *)

(** A thread that has a source keeps it through its own effects, and
    constructs no other. *)
Lemma effect_keeps_source t h w w' :
  effect t w w' → csrng w !! t = Some h →
  csrng w' !! t = Some h
  ∧ count (constructs t) (trace w') = count (constructs t) (trace w)
  ∧ count (deletes t) (trace w') = count (deletes t) (trace w).
Proof.
  intros [rd rest Hslot Hos | Hslot Hos | h' rd rd' Hslot Hdev] Hh;
    [congruence | congruence |].
  simpl. rewrite !count_snoc. simpl. split; [done | lia].
Qed.

Lemma effects_keep_source t h w w' :
  rtc (effect t) w w' → csrng w !! t = Some h →
  csrng w' !! t = Some h
  ∧ count (constructs t) (trace w') = count (constructs t) (trace w)
  ∧ count (deletes t) (trace w') = count (deletes t) (trace w).
Proof.
  induction 1 as [w | w w1 w2 Hstep _ IH]; [done |].
  intros Hh. destruct (effect_keeps_source _ _ _ _ Hstep Hh) as (H1 & H2 & H3).
  destruct (IH H1) as (? & ? & ?). split; [done | split; congruence].
Qed.

(** The effects of [t1] leave the slot and the device of any other thread
    [t2] as they were, in a well formed world. *)
Lemma effect_frame t1 t2 w w' :
  effect t1 w w' → wf w → t1 ≠ t2 →
  csrng w' !! t2 = csrng w !! t2
  ∧ (∀ h2, csrng w !! t2 = Some h2 → devices w' !! h2 = devices w !! h2)
  ∧ count (constructs t2) (trace w') = count (constructs t2) (trace w)
  ∧ count (deletes t2) (trace w') = count (deletes t2) (trace w)
  ∧ count (draws_on t2) (trace w') = count (draws_on t2) (trace w).
Proof.
  intros [rd rest Hslot Hos | Hslot Hos | h rd rd' Hslot Hdev] Hwf Hne;
    simpl; rewrite ?count_snoc; simpl;
    rewrite ?bool_decide_eq_false_2 by done.
  - rewrite lookup_insert_ne by done. split; [done |].
    split; [| lia]. intros h2 Hh2.
    destruct (wf_live w Hwf _ _ Hh2) as [rd2 Hrd2].
    pose proof (fresh_handle_unused w).
    rewrite lookup_insert_ne; [done | congruence].
  - done.
  - split; [done |]. split; [| lia]. intros h2 Hh2.
    rewrite lookup_insert_ne; [done |].
    intros <-. apply Hne. by eapply (wf_inj w Hwf).
Qed.

Lemma effects_frame t1 t2 w w' :
  rtc (effect t1) w w' → wf w → t1 ≠ t2 →
  csrng w' !! t2 = csrng w !! t2
  ∧ (∀ h2, csrng w !! t2 = Some h2 → devices w' !! h2 = devices w !! h2)
  ∧ count (constructs t2) (trace w') = count (constructs t2) (trace w)
  ∧ count (deletes t2) (trace w') = count (deletes t2) (trace w)
  ∧ count (draws_on t2) (trace w') = count (draws_on t2) (trace w).
Proof.
  induction 1 as [w | w w1 w2 Hstep _ IH]; [done |].
  intros Hwf Hne.
  destruct (effect_frame _ _ _ _ Hstep Hwf Hne) as (H1 & H2 & H3 & H4 & H5).
  destruct (IH (wf_effect _ _ _ Hstep Hwf) Hne) as (I1 & I2 & I3 & I4 & I5).
  split; [congruence |]. split; [| split; [| split]; congruence].
  intros h2 Hh2. rewrite I2 by congruence. by apply H2.
Qed.

(** ** Every call is confined to the effects of its thread *)

Lemma confined_at_failure {A} t w w' :
  rtc (effect t) w w' → confined_at t w (failure (A := A) w').
Proof. unfold failure. by destruct have_noexcept. Qed.

Lemma confined_at_trans {A} t w w1 (o : outcome A) :
  rtc (effect t) w w1 → confined_at t w1 o → confined_at t w o.
Proof. intros Hw. destruct o; simpl; eauto using rtc_trans. Qed.

Lemma confined_ret {A} t (a : A) : confined t (ret a).
Proof. intros w. simpl. done. Qed.

Lemma confined_bind {A B} t (m : M A) (f : A → M B) :
  confined t m → (∀ a, confined t (f a)) → confined t (bind m f).
Proof.
  intros Hm Hf w. specialize (Hm w). unfold bind.
  destruct (m w) as [a w1 | e w1 | w1 |]; simpl in *; try done.
  eapply confined_at_trans; [done | apply Hf].
Qed.

Lemma confined_NOEXCEPT {A} t (m : M A) :
  confined t m → confined t (NOEXCEPT m).
Proof.
  intros Hm w. specialize (Hm w). unfold NOEXCEPT.
  destruct (m w) as [a w1 | e w1 | w1 |]; simpl in *; try done.
  by destruct have_noexcept.
Qed.

(** The three ways [get_csrng] can go. *)
Lemma get_csrng_cases t w :
  (∃ h, csrng w !! t = Some h ∧ get_csrng t w = Returned h w)
  ∨ (csrng w !! t = None ∧ ∃ rd rest, os w = Some rd :: rest
     ∧ get_csrng t w =
         Returned (fresh (dom (devices w))) (constructed_world t rd rest w))
  ∨ (csrng w !! t = None ∧ os_refuses w
     ∧ get_csrng t w = failure (refused_world w)).
Proof.
  destruct (csrng w !! t) as [h|] eqn:Hslot.
  { left. exists h. eauto using get_csrng_reuse. }
  right. destruct (os w) as [|[rd|] rest] eqn:Hos.
  - right. split; [done |].
    assert (os_refuses w) by (by left). eauto using get_csrng_refused.
  - left. split; [done |]. exists rd, rest. eauto using get_csrng_create.
  - right. split; [done |].
    assert (os_refuses w) by (right; eauto). eauto using get_csrng_refused.
Qed.

Lemma constructed_world_slot t rd rest w :
  csrng (constructed_world t rd rest w) !! t = Some (fresh (dom (devices w))).
Proof. unfold constructed_world. simpl. by rewrite lookup_insert_eq. Qed.

Lemma constructed_world_device t rd rest w :
  devices (constructed_world t rd rest w) !! fresh (dom (devices w)) = Some rd.
Proof. unfold constructed_world. simpl. by rewrite lookup_insert_eq. Qed.

(** Whatever follows the acquisition runs with the source in the slot. *)
Lemma confined_acquire_then {B} t (f : handle → M B) :
  (∀ h w, csrng w !! t = Some h → confined_at t w (f h w)) →
  confined t (bind (get_csrng t) f).
Proof.
  intros Hf w.
  destruct (get_csrng_cases t w)
    as [(h & Hslot & Hget) | [(Hslot & rd & rest & Hos & Hget)
                             | (Hslot & Hos & Hget)]].
  - rewrite (bind_Returned _ _ _ _ _ Hget). by apply Hf.
  - rewrite (bind_Returned _ _ _ _ _ Hget).
    eapply confined_at_trans.
    + apply rtc_once. by apply effect_construct.
    + apply Hf, constructed_world_slot.
  - rewrite (bind_failure _ _ _ _ Hget).
    apply confined_at_failure, rtc_once. by apply effect_refused.
Qed.

Lemma confined_get_csrng t : confined t (get_csrng t).
Proof.
  intros w.
  destruct (get_csrng_cases t w)
    as [(h & Hslot & ->) | [(Hslot & rd & rest & Hos & ->)
                           | (Hslot & Hos & ->)]].
  - simpl. done.
  - simpl. apply rtc_once. by apply effect_construct.
  - apply confined_at_failure, rtc_once. by apply effect_refused.
Qed.

Lemma confined_construct_distribution t bits a b :
  confined t (construct_distribution bits a b).
Proof.
  intros w. unfold construct_distribution.
  case_bool_decide; simpl; [done | apply rtc_refl].
Qed.

Lemma confined_at_draw t d h w :
  csrng w !! t = Some h → confined_at t w (draw t d h w).
Proof.
  intros Hslot. unfold draw.
  destruct (devices w !! h) as [rd|] eqn:Hdev; [| done].
  simpl. apply rtc_once. by eapply effect_draw.
Qed.

Lemma confined_next_range t begin end_ : confined t (next_range t begin end_).
Proof.
  apply confined_NOEXCEPT, confined_bind;
    [apply confined_construct_distribution |].
  intros d. apply confined_acquire_then. intros h w Hslot.
  pose proof (confined_at_draw t d h w Hslot) as Hdraw.
  unfold bind. by destruct (draw t d h w).
Qed.

Lemma confined_next t : confined t (next t).
Proof. apply confined_NOEXCEPT, confined_next_range. Qed.

Lemma confined_next_uint64 t begin end_ :
  confined t (next_uint64 t begin end_).
Proof.
  apply confined_NOEXCEPT, confined_bind;
    [apply confined_construct_distribution |].
  intros d. apply confined_acquire_then. intros h w Hslot.
  by apply confined_at_draw.
Qed.

Lemma confined_transform {A B} t (op : A → M B) (l : list A) :
  (∀ x, confined t (op x)) → confined t (transform op l).
Proof.
  intros Hop. induction l as [|x l IH]; simpl.
  - apply confined_ret.
  - apply confined_bind; [done |]. intros y.
    apply confined_bind; [done |]. intros ys. apply confined_ret.
Qed.

Lemma confined_fill t out : confined t (fill t out).
Proof.
  apply confined_NOEXCEPT, confined_transform. intros _.
  apply confined_NOEXCEPT, confined_next.
Qed.

Lemma confined_duration t expiration ratio :
  confined t (duration t expiration ratio).
Proof.
  apply confined_NOEXCEPT. cbv zeta.
  destruct (is_zero ratio); [apply confined_ret |].
  destruct (is_zero ((expiration `quot` ticks_per_ms) `quot` ratio));
    [apply confined_ret |].
  apply confined_bind; [apply confined_next_uint64 |].
  intros offset. apply confined_ret.
Qed.

(** A call that leaves a world behind got there by effects of its thread. *)
Lemma run_effects t c w w' : run t c w = Some w' → rtc (effect t) w w'.
Proof.
  assert (Hgen : ∀ A (m : M A),
    confined t m → world_after (m w) = Some w' → rtc (effect t) w w').
  { intros A m Hm. specialize (Hm w).
    destruct (m w); simpl in *; congruence. }
  destruct c; simpl; apply Hgen.
  - apply confined_get_csrng.
  - apply confined_next.
  - apply confined_next_range.
  - apply confined_next_uint64.
  - apply confined_fill.
  - apply confined_duration.
Qed.

Lemma wf_step w w' : step w w' → wf w → wf w'.
Proof.
  intros [t c w2 Hrun | t] Hwf.
  - eapply wf_effects; [by eapply run_effects | done].
  - by apply wf_thread_exit.
Qed.

Lemma wf_reachable w : reachable w → wf w.
Proof.
  intros [answers Hrun].
  assert (Hgen : ∀ w0, rtc step w0 w → wf w0 → wf w).
  { clear. induction 1; eauto using wf_step. }
  eapply Hgen; [done | apply wf_initial].
Qed.

(** ** The sampler *)

(** In a well formed world where the source is available the acquisition
    returns a live device. *)
Lemma get_csrng_available t w :
  wf w → source_available t w →
  ∃ h w1 rd, get_csrng t w = Returned h w1
    ∧ csrng w1 !! t = Some h ∧ devices w1 !! h = Some rd ∧ wf w1
    ∧ rtc (effect t) w w1.
Proof.
  intros Hwf Havail.
  destruct (get_csrng_cases t w)
    as [(h & Hslot & Hget) | [(Hslot & rd & rest & Hos & Hget)
                             | (Hslot & Hos & Hget)]].
  - destruct (wf_live w Hwf _ _ Hslot) as [rd Hrd].
    exists h, w, rd. done.
  - exists (fresh (dom (devices w))), (constructed_world t rd rest w), rd.
    split; [done |]. split; [apply constructed_world_slot |].
    split; [apply constructed_world_device |].
    split; [by apply wf_constructed |].
    apply rtc_once. by apply effect_construct.
  - exfalso. destruct Havail as [[h Hh] | (rd & rest & Hrd)]; [congruence |].
    destruct Hos as [Hos | [rest' Hos]]; congruence.
Qed.

Lemma byte_range_16 : maximum_uint8 < 2 ^ 16.
Proof. done. Qed.

(** [next(begin, end)] once the source is known: the value is the 16 bit
    draw itself, the cast to [uint8_t] leaves it as it is. *)
Lemma next_range_Returned t begin end_ w h w1 rd :
  is_uint8 begin → is_uint8 end_ → begin ≤ end_ →
  get_csrng t w = Returned h w1 → devices w1 !! h = Some rd →
  next_range t begin end_ w =
    Returned (uniform_int_distribution 16 begin end_ rd).1
      (drawn_world t h (uniform_int_distribution 16 begin end_ rd).2 w1).
Proof.
  intros Hb He Hle Hget Hdev. unfold is_uint8 in *. apply NOEXCEPT_Returned.
  rewrite (bind_Returned _ _ _ _ _
             (construct_distribution_Returned 16 begin end_ w
                ltac:(lia) Hle ltac:(lia))).
  rewrite (bind_Returned _ _ _ _ _ Hget).
  rewrite (bind_Returned _ _ _ _ _ (draw_Returned t 16 _ _ _ _ _ Hdev)).
  unfold ret. f_equal. apply to_uint8_id.
  unfold is_uint8.
  pose proof (uniform_int_distribution_range 16 begin end_ rd) as Hr.
  lia.
Qed.

Lemma next_Returned t w h w1 rd :
  get_csrng t w = Returned h w1 → devices w1 !! h = Some rd →
  next t w =
    Returned (uniform_int_distribution 16 minimum_uint8 maximum_uint8 rd).1
      (drawn_world t h
         (uniform_int_distribution 16 minimum_uint8 maximum_uint8 rd).2 w1).
Proof.
  intros Hget Hdev. apply NOEXCEPT_Returned.
  by apply next_range_Returned.
Qed.

Lemma next_uint64_Returned t begin end_ w h w1 rd :
  0 ≤ begin → begin ≤ end_ → end_ < 2 ^ 64 →
  get_csrng t w = Returned h w1 → devices w1 !! h = Some rd →
  next_uint64 t begin end_ w =
    Returned (uniform_int_distribution 64 begin end_ rd).1
      (drawn_world t h (uniform_int_distribution 64 begin end_ rd).2 w1).
Proof.
  intros Hb Hle He Hget Hdev. apply NOEXCEPT_Returned.
  rewrite (bind_Returned _ _ _ _ _
             (construct_distribution_Returned 64 begin end_ w Hb Hle He)).
  rewrite (bind_Returned _ _ _ _ _ Hget). by apply draw_Returned.
Qed.

(** A failed acquisition ends every sampling call the same way. *)
Lemma next_range_failure t begin end_ w w' :
  is_uint8 begin → is_uint8 end_ → begin ≤ end_ →
  get_csrng t w = failure w' → next_range t begin end_ w = failure w'.
Proof.
  intros Hb He Hle Hget. unfold is_uint8 in *. apply NOEXCEPT_failure.
  rewrite (bind_Returned _ _ _ _ _
             (construct_distribution_Returned 16 begin end_ w
                ltac:(lia) Hle ltac:(lia))).
  by apply bind_failure.
Qed.

Lemma next_failure t w w' : get_csrng t w = failure w' → next t w = failure w'.
Proof. intros Hget. by apply NOEXCEPT_failure, next_range_failure. Qed.

Lemma next_uint64_failure t begin end_ w w' :
  0 ≤ begin → begin ≤ end_ → end_ < 2 ^ 64 →
  get_csrng t w = failure w' → next_uint64 t begin end_ w = failure w'.
Proof.
  intros Hb Hle He Hget. apply NOEXCEPT_failure.
  rewrite (bind_Returned _ _ _ _ _
             (construct_distribution_Returned 64 begin end_ w Hb Hle He)).
  by apply bind_failure.
Qed.

(** ** [fill] *)

Lemma draws_length n rd : length (draws n rd).1 = n.
Proof. revert rd. induction n as [|n IH]; intros rd; simpl; [done | by rewrite IH]. Qed.

Lemma draws_bytes n rd : Forall is_uint8 (draws n rd).1.
Proof.
  revert rd. induction n as [|n IH]; intros rd; simpl; [done |].
  constructor; [| apply IH].
  pose proof (uniform_int_distribution_range 16 minimum_uint8 maximum_uint8 rd)
    as Hr.
  unfold is_uint8, minimum_uint8, maximum_uint8 in *. lia.
Qed.

Lemma filled_world_O t h rd w :
  devices w !! h = Some rd → filled_world t h 0 rd w = w.
Proof.
  intros Hdev. destruct w as [c d o tr]. unfold filled_world. simpl in *.
  by rewrite insert_id, app_nil_r.
Qed.

Lemma filled_world_S t h n rd w :
  let r := uniform_int_distribution 16 minimum_uint8 maximum_uint8 rd in
  filled_world t h n r.2 (drawn_world t h r.2 w) = filled_world t h (S n) rd w.
Proof.
  unfold filled_world, drawn_world. simpl.
  by rewrite insert_insert_eq, <- app_assoc.
Qed.

Lemma transform_next_Returned t out h rd w :
  csrng w !! t = Some h → devices w !! h = Some rd →
  transform (λ _ : Z, NOEXCEPT (next t)) out w =
    Returned (draws (length out) rd).1 (filled_world t h (length out) rd w).
Proof.
  revert rd w. induction out as [|x out IH]; intros rd w Hslot Hdev.
  - simpl. unfold ret. by rewrite filled_world_O.
  - cbn [transform length draws].
    set (r := uniform_int_distribution 16 minimum_uint8 maximum_uint8 rd).
    assert (Hnext : NOEXCEPT (next t) w = Returned r.1 (drawn_world t h r.2 w)).
    { apply NOEXCEPT_Returned, next_Returned; [| done].
      by apply get_csrng_reuse. }
    rewrite (bind_Returned _ _ _ _ _ Hnext).
    assert (Hrest : transform (λ _ : Z, NOEXCEPT (next t)) out
                      (drawn_world t h r.2 w) =
                    Returned (draws (length out) r.2).1
                      (filled_world t h (length out) r.2
                         (drawn_world t h r.2 w))).
    { apply IH; simpl; [done | by rewrite lookup_insert_eq]. }
    rewrite (bind_Returned _ _ _ _ _ Hrest).
    unfold ret. simpl. f_equal. apply filled_world_S.
Qed.

Lemma count_replicate_drawn t h n :
  count (draws_on t) (replicate n (Drawn t h)) = n.
Proof.
  induction n as [|n IH]; simpl; [done |].
  rewrite bool_decide_eq_true_2 by done. by rewrite IH.
Qed.

(** ** The sampler: range, degenerate range, narrowing *)

(** The call returns the draw, and the draw is in the range asked for. *)
Lemma next_range_available t begin end_ w :
  is_uint8 begin → is_uint8 end_ → begin ≤ end_ →
  wf w → source_available t w →
  ∃ h w1 rd, get_csrng t w = Returned h w1
    ∧ devices w1 !! h = Some rd
    ∧ begin ≤ (uniform_int_distribution 16 begin end_ rd).1 ≤ end_
    ∧ next_range t begin end_ w =
        Returned (uniform_int_distribution 16 begin end_ rd).1
          (drawn_world t h (uniform_int_distribution 16 begin end_ rd).2 w1).
Proof.
  intros Hb He Hle Hwf Havail.
  destruct (get_csrng_available t w Hwf Havail)
    as (h & w1 & rd & Hget & _ & Hdev & _).
  exists h, w1, rd. split; [done |]. split; [done |].
  split; [| by eapply next_range_Returned].
  apply uniform_int_distribution_range; unfold is_uint8 in *; lia.
Qed.

(** C4: for [low <= high] of [uint8_t], [next(low, high)] returns a value
    [v] with [low <= v <= high].  The call returns whenever the world is
    well formed and the calling thread has its entropy source or the
    operating system hands one out. *)
Theorem next_in_requested_range t low high w :
  is_uint8 low → is_uint8 high → low ≤ high →
  wf w → source_available t w →
  ∃ v w', next_range t low high w = Returned v w' ∧ low ≤ v ≤ high.
Proof.
  intros Hlow Hhigh Hle Hwf Havail.
  destruct (next_range_available t low high w)
    as (h & w1 & rd & _ & _ & Hin & Hnext); [done .. |].
  eauto.
Qed.

(** C5: the single value range: [next(x, x)] returns exactly [x]. *)
Theorem next_single_value t x w :
  is_uint8 x → wf w → source_available t w →
  ∃ w', next_range t x x w = Returned x w'.
Proof.
  intros Hx Hwf Havail.
  destruct (next_range_available t x x w)
    as (h & w1 & rd & _ & _ & Hin & Hnext);
    [done | done | lia | done | done |].
  eexists. rewrite Hnext. f_equal. lia.
Qed.

(** C7: [next(begin, end)] constructs a distribution with a 16 bit result
    type, twice the width of the 8 bit target, over [(begin, end)], draws
    from it on the thread's device and narrows the draw to [uint8_t]; for
    [begin <= end] the draw is at most 255, the narrowing leaves it as it
    is, and the value returned is the draw itself: every value of the
    range, its maximum included, comes out as the distribution produced
    it. *)
Theorem next_narrowing_keeps_the_draw t begin end_ w :
  is_uint8 begin → is_uint8 end_ → begin ≤ end_ →
  wf w → source_available t w →
  ∃ h w1 rd w',
    construct_distribution (2 * 8) begin end_ w
    = Returned (Distribution 16 begin end_) w
    ∧ get_csrng t w = Returned h w1
    ∧ devices w1 !! h = Some rd
    ∧ draw t (Distribution 16 begin end_) h w1
      = Returned (uniform_int_distribution 16 begin end_ rd).1 w'
    ∧ let drawn := (uniform_int_distribution 16 begin end_ rd).1 in
      begin ≤ drawn ≤ end_
      ∧ drawn ≤ maximum_uint8
      ∧ to_uint8 drawn = drawn
      ∧ next_range t begin end_ w = Returned drawn w'.
Proof.
  intros Hb He Hle Hwf Havail.
  destruct (next_range_available t begin end_ w)
    as (h & w1 & rd & Hget & Hdev & Hin & Hnext); [done .. |].
  exists h, w1, rd. eexists. unfold is_uint8, maximum_uint8 in *.
  split; [apply construct_distribution_Returned; lia |].
  split; [done |]. split; [done |].
  split; [by apply draw_Returned |].
  cbv zeta.
  split; [done |]. split; [lia |].
  split; [apply to_uint8_id; unfold is_uint8; lia | done].
Qed.

(** C6: [fill] on a buffer of length [N] returns [N] bytes, each in
    [[0, 255]]; they are the [N] successive [next()] draws from the thread's
    device, the i-th draw at position i, whatever the buffer held before;
    the thread draws exactly [N] times. *)
Theorem fill_overwrites_every_element t out w :
  wf w → (out ≠ [] → source_available t w) →
  ∃ bytes w', fill t out w = Returned bytes w'
    ∧ length bytes = length out
    ∧ Forall is_uint8 bytes
    ∧ count (draws_on t) (trace w')
      = (count (draws_on t) (trace w) + length out)%nat
    ∧ ∀ h w1 rd, get_csrng t w = Returned h w1 → devices w1 !! h = Some rd →
        bytes = (draws (length out) rd).1
        ∧ (out ≠ [] → devices w' !! h = Some (draws (length out) rd).2).
Proof.
  intros Hwf Havail. destruct out as [|x out].
  { exists [], w. simpl. split; [done |]. split; [done |]. split; [done |].
    split; [lia | done]. }
  destruct (get_csrng_available t w Hwf (Havail ltac:(done)))
    as (h & w1 & rd & Hget & Hslot & Hdev & Hwf1 & Heff).
  set (r := uniform_int_distribution 16 minimum_uint8 maximum_uint8 rd).
  set (n := length out).
  assert (Hfill : fill t (x :: out) w =
    Returned (draws (S n) rd).1 (filled_world t h (S n) rd w1)).
  { apply NOEXCEPT_Returned. cbn [transform].
    assert (Hnext : NOEXCEPT (next t) w = Returned r.1 (drawn_world t h r.2 w1))
      by (by apply NOEXCEPT_Returned, next_Returned).
    rewrite (bind_Returned _ _ _ _ _ Hnext).
    assert (Hrest : transform (λ _ : Z, NOEXCEPT (next t)) out
                      (drawn_world t h r.2 w1) =
                    Returned (draws n r.2).1
                      (filled_world t h n r.2 (drawn_world t h r.2 w1))).
    { apply transform_next_Returned; simpl;
        [done | by rewrite lookup_insert_eq]. }
    rewrite (bind_Returned _ _ _ _ _ Hrest).
    unfold ret. simpl. f_equal. apply filled_world_S. }
  eexists _, _. split; [exact Hfill |].
  split; [by rewrite draws_length |].
  split; [apply draws_bytes |].
  split.
  - unfold filled_world. cbn [trace].
    rewrite count_app, count_replicate_drawn.
    assert (count (draws_on t) (trace w1) = count (draws_on t) (trace w))
      as ->; [| done].
    destruct (get_csrng_cases t w)
      as [(h' & _ & Hget') | [(_ & rd' & rest & _ & Hget')
                             | (_ & _ & Hget')]];
      rewrite Hget' in Hget.
    + by injection Hget as _ <-.
    + injection Hget as _ <-. simpl. rewrite count_snoc. simpl. lia.
    + by apply failure_not_Returned in Hget.
  - intros h' w1' rd' Hget' Hdev'. rewrite Hget in Hget'.
    injection Hget' as <- <-. simplify_eq. split; [done |].
    intros _. unfold filled_world. cbn [devices]. apply lookup_insert_eq.
Qed.

(** ** The jitter calculator *)

Lemma duration_degenerate t expiration ratio w :
  ratio = 0 ∨ (expiration `quot` ticks_per_ms) `quot` ratio = 0 →
  duration t expiration ratio w = Returned expiration w.
Proof.
  intros Hdeg. apply NOEXCEPT_Returned. cbv zeta.
  destruct (is_zero ratio) eqn:Hratio; [done |].
  apply is_zero_false in Hratio. destruct Hdeg as [? | Hlimit]; [done |].
  apply is_zero_true in Hlimit. by rewrite Hlimit.
Qed.

Lemma duration_randomized t expiration ratio w :
  ratio ≠ 0 → (expiration `quot` ticks_per_ms) `quot` ratio ≠ 0 →
  duration t expiration ratio w =
    NOEXCEPT
      (bind
         (next_uint64 t zero
            (to_uint64 ((expiration `quot` ticks_per_ms) `quot` ratio)))
         (λ random_offset,
            ret (to_int64
                   (to_int64
                      (to_uint64
                         (expiration `quot` ticks_per_ms - random_offset))
                    * ticks_per_ms)))) w.
Proof.
  intros Hratio Hlimit. unfold duration. cbv zeta.
  apply is_zero_false in Hratio, Hlimit.
  unfold NOEXCEPT. by rewrite Hratio, Hlimit.
Qed.

(** C3: for [expiration >= 0], [duration(expiration, 0)] returns
    [expiration], and so does [duration(expiration, ratio)] for a nonzero
    [ratio] with [milliseconds(expiration) / ratio == 0]; both calls return,
    neither is an error. *)
Theorem duration_degenerate_returns_expiration t expiration ratio w :
  0 ≤ expiration → is_uint8 ratio →
  ratio = 0 ∨ (ratio ≠ 0 ∧ (expiration `quot` ticks_per_ms) `quot` ratio = 0) →
  ∃ w', duration t expiration ratio w = Returned expiration w'.
Proof.
  intros _ _ Hdeg. exists w. apply duration_degenerate.
  destruct Hdeg as [? | [_ ?]]; [by left | by right].
Qed.

(** C10: in the degenerate branches of [duration] ([ratio == 0], or
    [milliseconds(expiration) / ratio == 0]) the call returns in the world
    it was made in: no draw, no construction, no request to the operating
    system, the slot of the thread and every device as they were.  This
    holds in every world, also where the thread has no source and none
    could be made.  So a call of [duration] that changes the world is on
    the randomized branch. *)
Theorem duration_degenerate_draws_no_entropy t expiration ratio w :
  ratio = 0 ∨ (expiration `quot` ticks_per_ms) `quot` ratio = 0 →
  ∃ w', duration t expiration ratio w = Returned expiration w'
    ∧ csrng w' = csrng w ∧ devices w' = devices w ∧ os w' = os w
    ∧ trace w' = trace w
    ∧ count (draws_on t) (trace w') = count (draws_on t) (trace w)
    ∧ count (constructs t) (trace w') = count (constructs t) (trace w).
Proof.
  intros Hdeg. exists w. split; [by apply duration_degenerate | done].
Qed.

(** C1, as the code has it: for [0 <= expiration], a nonzero [ratio] and a
    nonzero [limit = milliseconds(expiration) / ratio], [duration] returns
    a whole number of milliseconds between [milliseconds(expiration) -
    limit] and [milliseconds(expiration)], where [milliseconds(expiration)]
    is [expiration] rounded down to whole milliseconds.  The result is never
    negative, never exceeds [expiration], and is less than a millisecond
    below [expiration - limit]; it is at least [expiration - limit] when
    [expiration] is a whole number of milliseconds. *)
Theorem duration_within_whole_milliseconds t expiration ratio w :
  0 ≤ expiration < 2 ^ 63 → is_uint8 ratio → ratio ≠ 0 →
  (expiration `quot` ticks_per_ms) `quot` ratio ≠ 0 →
  wf w → source_available t w →
  let max_expire := expiration `quot` ticks_per_ms in
  let limit := max_expire `quot` ratio in
  ∃ result w', duration t expiration ratio w = Returned result w'
    ∧ result `mod` ticks_per_ms = 0
    ∧ (max_expire - limit) * ticks_per_ms ≤ result ≤ max_expire * ticks_per_ms
    ∧ 0 ≤ result ≤ expiration
    ∧ expiration - limit * ticks_per_ms - ticks_per_ms < result
    ∧ (expiration `mod` ticks_per_ms = 0 →
       expiration - limit * ticks_per_ms ≤ result).
Proof.
  intros Hexp Hratio Hnz Hlimit Hwf Havail max_expire limit.
  pose proof ticks_per_ms_pos as Htpm.
  unfold is_uint8 in Hratio.
  assert (Hmax : max_expire = expiration `div` ticks_per_ms)
    by (apply Z.quot_div_nonneg; lia).
  assert (Hmax0 : 0 ≤ max_expire) by (rewrite Hmax; apply Z.div_pos; lia).
  assert (Hmul : max_expire * ticks_per_ms ≤ expiration).
  { rewrite Hmax, Z.mul_comm. apply Z.mul_div_le. lia. }
  assert (Hmod : expiration =
                 max_expire * ticks_per_ms + expiration `mod` ticks_per_ms).
  { rewrite Hmax, Z.mul_comm. apply Z.div_mod. lia. }
  pose proof (Z.mod_pos_bound expiration ticks_per_ms Htpm) as Hrem.
  assert (Hlim : limit = max_expire `div` ratio)
    by (apply Z.quot_div_nonneg; lia).
  assert (Hlim0 : 0 ≤ limit) by (rewrite Hlim; apply Z.div_pos; lia).
  assert (Hlimle : limit ≤ max_expire).
  { rewrite Hlim. apply Z.div_le_upper_bound; nia. }
  assert (Hmaxle : max_expire ≤ expiration) by nia.
  destruct (get_csrng_available t w Hwf Havail)
    as (h & w1 & rd & Hget & _ & Hdev & _).
  assert (Hu : to_uint64 limit = limit) by (apply to_uint64_id; lia).
  set (r := uniform_int_distribution 64 zero limit rd).
  assert (Hoff : 0 ≤ r.1 ≤ limit).
  { apply (uniform_int_distribution_range 64 zero limit rd);
      unfold zero; lia. }
  assert (Hnext : next_uint64 t zero (to_uint64 limit) w =
                  Returned r.1 (drawn_world t h r.2 w1)).
  { rewrite Hu. apply next_uint64_Returned; unfold zero; [lia .. | done | done]. }
  exists ((max_expire - r.1) * ticks_per_ms), (drawn_world t h r.2 w1).
  split.
  - rewrite duration_randomized by done. apply NOEXCEPT_Returned.
    fold max_expire. fold limit.
    rewrite (bind_Returned _ _ _ _ _ Hnext). unfold ret. f_equal.
    rewrite to_uint64_id by lia.
    rewrite (to_int64_id (max_expire - r.1)) by (unfold is_int64; lia).
    apply to_int64_id. unfold is_int64. nia.
  - split; [apply Z.mod_mul; lia |]. repeat split; nia.
Qed.

(** ** Failure of the acquisition *)

(** C2, as the code has it: when the calling thread has no entropy source
    and the operating system refuses one, every sampling call ends at the
    single failed construction: nothing is constructed or drawn, no value
    is returned in its place, and the one refusal is the only answer of
    the operating system that is used.  The failure is an exception
    inside functions declared [NOEXCEPT]: it is [ResourceExhausted] thrown
    to the caller where [NOEXCEPT] is empty, and the end of the process
    where [NOEXCEPT] is [noexcept]. *)
Theorem failed_acquisition_is_final t w :
  csrng w !! t = None → os_refuses w →
  let w' := refused_world w in
  (csrng w' = csrng w ∧ devices w' = devices w ∧ trace w' = trace w
   ∧ os w' = tail (os w))
  ∧ get_csrng t w =
      (if have_noexcept then Terminated w' else Thrown ResourceExhausted w')
  ∧ next t w =
      (if have_noexcept then Terminated w' else Thrown ResourceExhausted w')
  ∧ (∀ begin end_, is_uint8 begin → is_uint8 end_ → begin ≤ end_ →
      next_range t begin end_ w =
      (if have_noexcept then Terminated w' else Thrown ResourceExhausted w'))
  ∧ (∀ begin end_, 0 ≤ begin → begin ≤ end_ → end_ < 2 ^ 64 →
      next_uint64 t begin end_ w =
      (if have_noexcept then Terminated w' else Thrown ResourceExhausted w'))
  ∧ (∀ out, out ≠ [] → fill t out w =
      (if have_noexcept then Terminated w' else Thrown ResourceExhausted w'))
  ∧ (∀ expiration ratio,
      ratio ≠ 0 → (expiration `quot` ticks_per_ms) `quot` ratio ≠ 0 →
      duration t expiration ratio w =
      (if have_noexcept then Terminated w' else Thrown ResourceExhausted w')).
Proof.
  intros Hslot Hos w'.
  pose proof (get_csrng_refused t w Hslot Hos) as Hget. fold w' in Hget.
  split; [done |]. split; [exact Hget |].
  split; [by apply next_failure |].
  split; [intros; by apply next_range_failure |].
  split; [intros; by apply next_uint64_failure |].
  split.
  - intros [|x out] Hne; [done |].
    apply NOEXCEPT_failure. cbn [transform]. apply bind_failure.
    by apply NOEXCEPT_failure, next_failure.
  - intros expiration ratio Hratio Hlimit.
    rewrite duration_randomized by done.
    apply NOEXCEPT_failure, bind_failure.
    pose proof (to_uint64_range
                  ((expiration `quot` ticks_per_ms) `quot` ratio)).
    apply next_uint64_failure; unfold zero; [lia .. | done].
Qed.

(** ** One entropy source per thread *)

Lemma get_csrng_slot t w h w1 :
  get_csrng t w = Returned h w1 → csrng w1 !! t = Some h.
Proof.
  intros Hget.
  destruct (get_csrng_cases t w)
    as [(h' & Hslot & Hget') | [(_ & rd' & rest & _ & Hget')
                               | (_ & _ & Hget')]];
    rewrite Hget' in Hget.
  - by simplify_eq.
  - simplify_eq. apply constructed_world_slot.
  - by apply failure_not_Returned in Hget.
Qed.

(** A thread without a source ends a run of its effects without one, or
    with the one source it constructed. *)
Lemma effects_construct_once t w w' :
  rtc (effect t) w w' → csrng w !! t = None →
  count (deletes t) (trace w') = count (deletes t) (trace w)
  ∧ ((csrng w' !! t = None
      ∧ count (constructs t) (trace w') = count (constructs t) (trace w))
     ∨ (is_Some (csrng w' !! t)
        ∧ count (constructs t) (trace w')
          = S (count (constructs t) (trace w)))).
Proof.
  induction 1 as [w | w w1 w2 Hstep Hrest IH]; intros Hnone.
  { split; [done |]. by left. }
  destruct Hstep as [rd rest Hslot Hos | Hslot Hos | h rd rd' Hslot Hdev].
  - pose proof (constructed_world_slot t rd rest w) as Hnew.
    destruct (effects_keep_source _ _ _ _ Hrest Hnew) as (Hs & Hc & Hd).
    rewrite Hd, Hc. simpl. rewrite !count_snoc. simpl.
    rewrite bool_decide_eq_true_2 by done.
    split; [lia |]. right. split; [by eexists | lia].
  - apply IH. done.
  - congruence.
Qed.

(** C8: in every world a process can reach, a thread has at most one live
    entropy source, the one in its slot.  A sampling call of a thread
    that has a source keeps that source and constructs none; a call of a
    thread that has none constructs at most one; no call deletes a source.
    The first acquisition constructs one device at an address that held
    no live device and stores it.  When the thread ends, its source is
    deleted by that one event, after which the thread has no live source
    and every construction of the device is matched by one deletion; a
    thread that ends without a source deletes nothing. *)
Theorem one_entropy_source_per_thread t w :
  reachable w →
  (live_sources t (trace w) ≤ 1)%nat
  ∧ live_sources t (trace w) = indicator (is_Some (csrng w !! t))
  ∧ (∀ c w', run t c w = Some w' →
       count (deletes t) (trace w') = count (deletes t) (trace w)
       ∧ match csrng w !! t with
         | Some h =>
             csrng w' !! t = Some h
             ∧ count (constructs t) (trace w') = count (constructs t) (trace w)
         | None =>
             (csrng w' !! t = None
              ∧ count (constructs t) (trace w')
                = count (constructs t) (trace w))
             ∨ (is_Some (csrng w' !! t)
                ∧ count (constructs t) (trace w')
                  = S (count (constructs t) (trace w)))
         end)
  ∧ (csrng w !! t = None → os_grants w →
     ∃ h w1, get_csrng t w = Returned h w1
       ∧ devices w !! h = None
       ∧ csrng w1 !! t = Some h
       ∧ trace w1 = trace w ++ [Constructed t h]
       ∧ get_csrng t w1 = Returned h w1)
  ∧ (∀ h, csrng w !! t = Some h →
     get_csrng t w = Returned h w
     ∧ csrng (thread_exit t w) !! t = None
     ∧ devices (thread_exit t w) !! h = None
     ∧ trace (thread_exit t w) = trace w ++ [Deleted t h]
     ∧ live_sources t (trace (thread_exit t w)) = 0%nat
     ∧ count (is_event (Deleted t h)) (trace (thread_exit t w))
       = count (is_event (Constructed t h)) (trace (thread_exit t w)))
  ∧ (csrng w !! t = None → thread_exit t w = w).
Proof.
  intros Hreach. pose proof (wf_reachable w Hreach) as Hwf.
  assert (Hlive : live_sources t (trace w)
                  = indicator (is_Some (csrng w !! t))).
  { unfold live_sources. rewrite (wf_thread w Hwf t). lia. }
  split; [rewrite Hlive; unfold indicator; case_decide; lia |].
  split; [done |].
  split.
  { intros c w' Hrun. apply run_effects in Hrun.
    destruct (csrng w !! t) as [h|] eqn:Hslot.
    - destruct (effects_keep_source _ _ _ _ Hrun Hslot) as (? & ? & ?). done.
    - by apply effects_construct_once. }
  split.
  { intros Hslot (rd & rest & Hos).
    exists (fresh (dom (devices w))), (constructed_world t rd rest w).
    split; [by apply get_csrng_create |].
    split; [apply fresh_handle_unused |].
    split; [apply constructed_world_slot |].
    split; [done |].
    apply get_csrng_reuse, constructed_world_slot. }
  split.
  { intros h Hslot. split; [by apply get_csrng_reuse |].
    pose proof (wf_thread_exit t w Hwf) as Hwf'.
    pose proof (wf_thread _ Hwf' t) as Hthread.
    pose proof (wf_events _ Hwf' t h) as Hevents.
    revert Hthread Hevents. unfold thread_exit, live_sources. rewrite Hslot.
    simpl. rewrite !lookup_delete_eq. unfold indicator.
    intros Hthread Hevents.
    split; [done |]. split; [done |]. split; [done |].
    split; [count_cases | count_cases]. }
  intros Hslot. unfold thread_exit. by rewrite Hslot.
Qed.

(** C9: in every world a process can reach by calls and thread exits in
    any interleaving, the entropy sources of two distinct threads are
    distinct devices; a sampling call or the exit of one thread leaves the
    slot of the other, the device of the other and the events of the other
    as they were; and two calls, one on each thread, get distinct
    handles. *)
Theorem threads_never_share_a_source t1 t2 w :
  reachable w → t1 ≠ t2 →
  (∀ h1 h2, csrng w !! t1 = Some h1 → csrng w !! t2 = Some h2 → h1 ≠ h2)
  ∧ (∀ c w', run t1 c w = Some w' →
       csrng w' !! t2 = csrng w !! t2
       ∧ (∀ h2, csrng w !! t2 = Some h2 → devices w' !! h2 = devices w !! h2)
       ∧ count (constructs t2) (trace w') = count (constructs t2) (trace w)
       ∧ count (deletes t2) (trace w') = count (deletes t2) (trace w)
       ∧ count (draws_on t2) (trace w') = count (draws_on t2) (trace w))
  ∧ (csrng (thread_exit t1 w) !! t2 = csrng w !! t2
     ∧ ∀ h2, csrng w !! t2 = Some h2 →
         devices (thread_exit t1 w) !! h2 = devices w !! h2)
  ∧ (∀ h1 w1 h2 w2,
       get_csrng t1 w = Returned h1 w1 → get_csrng t2 w1 = Returned h2 w2 →
       h1 ≠ h2 ∧ csrng w2 !! t1 = Some h1 ∧ csrng w2 !! t2 = Some h2).
Proof.
  intros Hreach Hne. pose proof (wf_reachable w Hreach) as Hwf.
  split.
  { intros h1 h2 H1 H2 <-. apply Hne. by eapply (wf_inj w Hwf). }
  split.
  { intros c w' Hrun. apply run_effects in Hrun.
    by apply (effects_frame t1 t2). }
  split.
  { unfold thread_exit. destruct (csrng w !! t1) as [h1|] eqn:Hslot; [| done].
    simpl. rewrite lookup_delete_ne by done. split; [done |].
    intros h2 Hh2. rewrite lookup_delete_ne; [done |].
    intros <-. apply Hne. by eapply (wf_inj w Hwf). }
  intros h1 w1 h2 w2 Hget1 Hget2.
  pose proof (get_csrng_slot _ _ _ _ Hget1) as Hs1.
  pose proof (get_csrng_slot _ _ _ _ Hget2) as Hs2.
  assert (Heff1 : rtc (effect t1) w w1).
  { pose proof (confined_get_csrng t1 w) as Hc. by rewrite Hget1 in Hc. }
  assert (Heff2 : rtc (effect t2) w1 w2).
  { pose proof (confined_get_csrng t2 w1) as Hc. by rewrite Hget2 in Hc. }
  pose proof (wf_effects _ _ _ Heff1 Hwf) as Hwf1.
  pose proof (wf_effects _ _ _ Heff2 Hwf1) as Hwf2.
  destruct (effects_frame t2 t1 _ _ Heff2 Hwf1 ltac:(done)) as (Hkeep & _).
  rewrite Hs1 in Hkeep.
  split; [| done].
  intros <-. apply Hne. by eapply (wf_inj w2 Hwf2).
Qed.

(** ** Further properties of the calls *)

Lemma get_csrng_draws t t' w h w1 :
  get_csrng t w = Returned h w1 →
  count (draws_on t') (trace w1) = count (draws_on t') (trace w).
Proof.
  intros Hget.
  destruct (get_csrng_cases t w)
    as [(h' & _ & Hget') | [(_ & rd' & rest & _ & Hget')
                           | (_ & _ & Hget')]];
    rewrite Hget' in Hget.
  - by injection Hget as _ <-.
  - injection Hget as _ <-. simpl. rewrite count_snoc. simpl. lia.
  - by apply failure_not_Returned in Hget.
Qed.

Lemma count_draws_filled t h n rd w :
  count (draws_on t) (trace (filled_world t h n rd w))
  = (count (draws_on t) (trace w) + n)%nat.
Proof.
  unfold filled_world. cbn [trace].
  by rewrite count_app, count_replicate_drawn.
Qed.

Lemma fill_nil t w : fill t [] w = Returned [] w.
Proof. by apply NOEXCEPT_Returned. Qed.

(** [fill] by a thread that has its source. *)
Lemma fill_with_source t out h rd w :
  csrng w !! t = Some h → devices w !! h = Some rd →
  fill t out w =
    Returned (draws (length out) rd).1 (filled_world t h (length out) rd w).
Proof.
  intros Hslot Hdev. apply NOEXCEPT_Returned.
  by apply transform_next_Returned.
Qed.

(** [fill] of a buffer that is not empty, from the acquisition on. *)
Lemma fill_after_acquisition t x out w h w1 rd :
  get_csrng t w = Returned h w1 → devices w1 !! h = Some rd →
  fill t (x :: out) w =
    Returned (draws (S (length out)) rd).1
      (filled_world t h (S (length out)) rd w1).
Proof.
  intros Hget Hdev. pose proof (get_csrng_slot _ _ _ _ Hget) as Hslot.
  set (r := uniform_int_distribution 16 minimum_uint8 maximum_uint8 rd).
  apply NOEXCEPT_Returned. cbn [transform].
  assert (Hnext : NOEXCEPT (next t) w = Returned r.1 (drawn_world t h r.2 w1))
    by (by apply NOEXCEPT_Returned, next_Returned).
  rewrite (bind_Returned _ _ _ _ _ Hnext).
  assert (Hrest : transform (λ _ : Z, NOEXCEPT (next t)) out
                    (drawn_world t h r.2 w1) =
                  Returned (draws (length out) r.2).1
                    (filled_world t h (length out) r.2
                       (drawn_world t h r.2 w1))).
  { apply transform_next_Returned; simpl;
      [done | by rewrite lookup_insert_eq]. }
  rewrite (bind_Returned _ _ _ _ _ Hrest).
  unfold ret. simpl. f_equal. apply filled_world_S.
Qed.

Lemma draws_add n m rd :
  draws (n + m) rd =
    ((draws n rd).1 ++ (draws m (draws n rd).2).1, (draws m (draws n rd).2).2).
Proof.
  revert rd. induction n as [|n IH]; intros rd.
  - simpl. by destruct (draws m rd).
  - cbn [Nat.add draws]. rewrite IH. done.
Qed.

Lemma filled_world_add t h n m rd w :
  filled_world t h m (draws n rd).2 (filled_world t h n rd w)
  = filled_world t h (n + m) rd w.
Proof.
  unfold filled_world. cbn [csrng devices os trace].
  rewrite insert_insert_eq, draws_add, replicate_add, app_assoc. done.
Qed.

(** The randomized branch of [duration], from the acquisition on: no
    conversion wraps around. *)
Lemma duration_randomized_Returned t expiration ratio w h w1 rd :
  0 ≤ expiration < 2 ^ 63 → is_uint8 ratio → ratio ≠ 0 →
  (expiration `quot` ticks_per_ms) `quot` ratio ≠ 0 →
  get_csrng t w = Returned h w1 → devices w1 !! h = Some rd →
  let max_expire := expiration `quot` ticks_per_ms in
  let limit := max_expire `quot` ratio in
  let r := uniform_int_distribution 64 zero limit rd in
  0 ≤ r.1 ≤ limit ∧ limit ≤ max_expire
  ∧ duration t expiration ratio w =
      Returned ((max_expire - r.1) * ticks_per_ms) (drawn_world t h r.2 w1).
Proof.
  intros Hexp Hratio Hnz Hlimit Hget Hdev max_expire limit r.
  pose proof ticks_per_ms_pos as Htpm.
  unfold is_uint8 in Hratio.
  assert (Hmax : max_expire = expiration `div` ticks_per_ms)
    by (apply Z.quot_div_nonneg; lia).
  assert (Hmax0 : 0 ≤ max_expire) by (rewrite Hmax; apply Z.div_pos; lia).
  assert (Hmul : max_expire * ticks_per_ms ≤ expiration).
  { rewrite Hmax, Z.mul_comm. apply Z.mul_div_le. lia. }
  assert (Hlim : limit = max_expire `div` ratio)
    by (apply Z.quot_div_nonneg; lia).
  assert (Hlim0 : 0 ≤ limit) by (rewrite Hlim; apply Z.div_pos; lia).
  assert (Hlimle : limit ≤ max_expire).
  { rewrite Hlim. apply Z.div_le_upper_bound; nia. }
  assert (Hmaxle : max_expire ≤ expiration) by nia.
  assert (Hu : to_uint64 limit = limit) by (apply to_uint64_id; lia).
  assert (Hoff : 0 ≤ r.1 ≤ limit).
  { apply (uniform_int_distribution_range 64 zero limit rd);
      unfold zero; lia. }
  assert (Hnext : next_uint64 t zero (to_uint64 limit) w =
                  Returned r.1 (drawn_world t h r.2 w1)).
  { rewrite Hu.
    apply next_uint64_Returned; unfold zero; [lia .. | done | done]. }
  split; [done |]. split; [done |].
  rewrite duration_randomized by done. apply NOEXCEPT_Returned.
  fold max_expire. fold limit.
  rewrite (bind_Returned _ _ _ _ _ Hnext). unfold ret. f_equal.
  rewrite to_uint64_id by lia.
  rewrite (to_int64_id (max_expire - r.1)) by (unfold is_int64; lia).
  apply to_int64_id. unfold is_int64. nia.
Qed.

(** [milliseconds(expiration) / ratio] is zero exactly below [ratio]
    milliseconds. *)
Lemma limit_zero_iff expiration ratio :
  0 ≤ expiration → 0 < ratio →
  (expiration `quot` ticks_per_ms) `quot` ratio = 0
  ↔ expiration < ratio * ticks_per_ms.
Proof.
  intros Hexp Hratio. pose proof ticks_per_ms_pos as Htpm.
  rewrite (Z.quot_div_nonneg expiration) by lia.
  rewrite Z.quot_div_nonneg by (try apply Z.div_pos; lia).
  rewrite Z.div_div by lia.
  rewrite Z.div_small_iff by lia. lia.
Qed.

(** The effects of a thread that has its source are draws on it. *)
Lemma effects_with_source t h w w' :
  rtc (effect t) w w' → csrng w !! t = Some h →
  csrng w' = csrng w ∧ os w' = os w
  ∧ dom (devices w') = dom (devices w)
  ∧ ∀ h', h' ≠ h → devices w' !! h' = devices w !! h'.
Proof.
  induction 1 as [w | w w1 w2 Hstep _ IH]; intros Hslot; [done |].
  destruct Hstep as [rd rest Hnone Hos | Hnone Hos | h0 rd rd' Hslot0 Hdev];
    [congruence | congruence |].
  assert (h0 = h) as -> by congruence.
  destruct (IH Hslot) as (Hc & Ho & Hd & Hother).
  split; [done |]. split; [done |]. split.
  - rewrite Hd. simpl. apply dom_insert_lookup_L. by eexists.
  - intros h' Hne. rewrite Hother by done. simpl.
    by rewrite lookup_insert_ne.
Qed.

(** X3: every call with valid arguments returns where the source is
    available, and draws from the thread's device exactly as often as its
    source text says: [get_csrng] never, [next] in both forms and the
    template once, [fill] once per byte, [duration] once on the
    randomized branch and never on the degenerate ones. *)
Theorem calls_draw_their_cost t c w :
  wf w → source_available t w → valid_call c →
  ∃ w', returns t c w = Some w'
    ∧ count (draws_on t) (trace w')
      = (count (draws_on t) (trace w) + entropy_cost c)%nat.
Proof.
  intros Hwf Havail Hvalid.
  destruct (get_csrng_available t w Hwf Havail)
    as (h & w1 & rd & Hget & Hslot & Hdev & _).
  pose proof (get_csrng_draws t t w h w1 Hget) as Hdraws.
  assert (Hone : ∀ rd', count (draws_on t) (trace (drawn_world t h rd' w1))
                        = (count (draws_on t) (trace w) + 1)%nat).
  { intros rd'. simpl. rewrite count_snoc. simpl.
    rewrite bool_decide_eq_true_2 by done. lia. }
  destruct c as [| | b e | b e | out | x r];
    cbn [returns entropy_cost valid_call] in *.
  - rewrite Hget. exists w1. split; [done | lia].
  - rewrite (next_Returned _ _ _ _ _ Hget Hdev). eexists. split; [done |].
    apply Hone.
  - destruct Hvalid as (Hb & He & Hle).
    rewrite (next_range_Returned _ _ _ _ _ _ _ Hb He Hle Hget Hdev).
    eexists. split; [done |]. apply Hone.
  - destruct Hvalid as (Hb & Hle & He).
    rewrite (next_uint64_Returned _ _ _ _ _ _ _ Hb Hle He Hget Hdev).
    eexists. split; [done |]. apply Hone.
  - destruct out as [|x out].
    + exists w. rewrite fill_nil. split; [done | simpl; lia].
    + rewrite (fill_after_acquisition _ _ _ _ _ _ _ Hget Hdev).
      eexists. split; [done |]. rewrite count_draws_filled. simpl. lia.
  - destruct Hvalid as (Hx & Hr).
    destruct (is_zero r) eqn:Hzr.
    { apply is_zero_true in Hzr. rewrite duration_degenerate by (by left).
      exists w. split; [done | lia]. }
    destruct (is_zero ((x `quot` ticks_per_ms) `quot` r)) eqn:Hzl.
    { apply is_zero_true in Hzl. rewrite duration_degenerate by (by right).
      exists w. split; [done | lia]. }
    apply is_zero_false in Hzr, Hzl.
    destruct (duration_randomized_Returned t x r w h w1 rd
                Hx Hr Hzr Hzl Hget Hdev) as (_ & _ & Hd).
    rewrite Hd. eexists. split; [done |]. apply Hone.
Qed.

(** X4: on the randomized branch [duration] subtracts a whole number of
    milliseconds: the result is [milliseconds(expiration) - offset]
    milliseconds, a multiple of the millisecond, where [offset] is the 64
    bit draw over [(0, limit)] from the thread's device and lies between 0
    and [limit]; no conversion between [int64_t] and [uint64_t] wraps
    around. *)
Theorem duration_subtracts_whole_milliseconds t expiration ratio w :
  0 ≤ expiration < 2 ^ 63 → is_uint8 ratio → ratio ≠ 0 →
  (expiration `quot` ticks_per_ms) `quot` ratio ≠ 0 →
  wf w → source_available t w →
  let max_expire := expiration `quot` ticks_per_ms in
  let limit := max_expire `quot` ratio in
  ∃ h w1 rd w', get_csrng t w = Returned h w1
    ∧ devices w1 !! h = Some rd
    ∧ let offset := (uniform_int_distribution 64 zero limit rd).1 in
      0 ≤ offset ≤ limit
      ∧ duration t expiration ratio w
        = Returned ((max_expire - offset) * ticks_per_ms) w'
      ∧ ((max_expire - offset) * ticks_per_ms) `mod` ticks_per_ms = 0
      ∧ trace w' = trace w1 ++ [Drawn t h].
Proof.
  intros Hexp Hratio Hnz Hlimit Hwf Havail max_expire limit.
  destruct (get_csrng_available t w Hwf Havail)
    as (h & w1 & rd & Hget & _ & Hdev & _).
  destruct (duration_randomized_Returned t expiration ratio w h w1 rd
              Hexp Hratio Hnz Hlimit Hget Hdev) as (Hoff & _ & Hd).
  exists h, w1, rd. eexists. split; [done |]. split; [done |].
  cbv zeta. split; [exact Hoff |]. split; [exact Hd |].
  split; [apply Z.mod_mul; pose proof ticks_per_ms_pos; lia | done].
Qed.

(** X5: no device leaks and none is shared: in every world a process can
    reach, a [std::random_device] is live exactly when it is in the slot
    of a thread, and that thread is the only one. *)
Theorem devices_owned_by_one_thread w h :
  reachable w →
  is_Some (devices w !! h)
  ↔ ∃ t, csrng w !! t = Some h ∧ ∀ t', csrng w !! t' = Some h → t' = t.
Proof.
  intros Hreach. pose proof (wf_reachable w Hreach) as Hwf. split.
  - intros Hlive. destruct (wf_owned w Hwf h Hlive) as [t Ht].
    exists t. split; [done |]. intros t' Ht'. by eapply (wf_inj w Hwf).
  - intros (t & Ht & _). by eapply wf_live.
Qed.

(** X6: the [deleter] never runs twice on a device: in every world a
    process can reach, the deletions of a device by a thread never exceed
    its constructions there, a device in the slot of a thread has been
    constructed once more than deleted, and any other has been deleted as
    often as constructed. *)
Theorem never_deleted_twice t h w :
  reachable w →
  (count (is_event (Deleted t h)) (trace w)
   ≤ count (is_event (Constructed t h)) (trace w))%nat
  ∧ (count (deletes t) (trace w) ≤ count (constructs t) (trace w))%nat
  ∧ (csrng w !! t = Some h →
     count (is_event (Constructed t h)) (trace w)
     = S (count (is_event (Deleted t h)) (trace w)))
  ∧ (csrng w !! t ≠ Some h →
     count (is_event (Constructed t h)) (trace w)
     = count (is_event (Deleted t h)) (trace w)).
Proof.
  intros Hreach. pose proof (wf_reachable w Hreach) as Hwf.
  pose proof (wf_events w Hwf t h) as He.
  pose proof (wf_thread w Hwf t) as Ht.
  unfold indicator in *.
  destruct (decide (csrng w !! t = Some h));
    destruct (decide (is_Some (csrng w !! t)));
    (split; [lia |]); (split; [lia |]);
    split; intros Hslot; first [done | lia].
Qed.

(** X7: a thread that has its source keeps to it: whatever call it makes,
    the slots of all threads, the answers of the operating system and the
    set of live devices are as before and every other device is
    untouched; it asks the operating system for nothing. *)
Theorem calls_with_source_leave_os_alone t h c w w' :
  csrng w !! t = Some h → run t c w = Some w' →
  csrng w' = csrng w ∧ os w' = os w
  ∧ dom (devices w') = dom (devices w)
  ∧ ∀ h', h' ≠ h → devices w' !! h' = devices w !! h'.
Proof.
  intros Hslot Hrun. apply run_effects in Hrun.
  by eapply effects_with_source.
Qed.

(** X8: a failed acquisition is not sticky.  Where [NOEXCEPT] is empty
    the failed [next()] throws and leaves a well formed world in which
    the thread still has no source; if the operating system then grants a
    device, the same call made again returns a byte and the thread has
    its source. *)
Theorem failed_acquisition_can_be_repeated t w :
  have_noexcept = false → wf w →
  csrng w !! t = None → os_refuses w → os_grants (refused_world w) →
  next t w = Thrown ResourceExhausted (refused_world w)
  ∧ wf (refused_world w)
  ∧ csrng (refused_world w) !! t = None
  ∧ ∃ v w2, next t (refused_world w) = Returned v w2
      ∧ is_uint8 v ∧ is_Some (csrng w2 !! t).
Proof.
  intros Hplain Hwf Hslot Hos Hgrant.
  pose proof (next_failure t w _ (get_csrng_refused t w Hslot Hos)) as Hfail.
  unfold failure in Hfail. rewrite Hplain in Hfail.
  pose proof (wf_refused w Hwf) as Hwf'.
  split; [done |]. split; [done |]. split; [done |].
  destruct (get_csrng_available t (refused_world w) Hwf' (or_intror Hgrant))
    as (h & w1 & rd & Hget & Hs & Hdev & _).
  eexists _, _. split; [by eapply next_Returned |].
  split.
  - pose proof (uniform_int_distribution_range 16 minimum_uint8
                  maximum_uint8 rd) as Hr.
    unfold is_uint8, minimum_uint8, maximum_uint8 in *. lia.
  - simpl. by eexists.
Qed.

(** X9: filling a buffer in two parts is filling it at once: the bytes of
    [fill] on [l1 ++ l2] are the bytes of [fill] on [l1] followed by the
    bytes of [fill] on [l2] in the world the first call left, and the
    final worlds are the same. *)
Theorem fill_in_two_parts t l1 l2 w :
  wf w → source_available t w →
  ∃ b1 w1 b2 w2, fill t l1 w = Returned b1 w1
    ∧ fill t l2 w1 = Returned b2 w2
    ∧ fill t (l1 ++ l2) w = Returned (b1 ++ b2) w2.
Proof.
  intros Hwf Havail.
  destruct (get_csrng_available t w Hwf Havail)
    as (h & w0 & rd & Hget & Hslot & Hdev & _).
  destruct l1 as [|x l1].
  { exists [], w. destruct l2 as [|y l2].
    - exists [], w. by rewrite fill_nil.
    - eexists _, _. split; [apply fill_nil |].
      split; by eapply fill_after_acquisition. }
  set (n1 := S (length l1)).
  pose proof (fill_after_acquisition t x l1 w h w0 rd Hget Hdev) as H1.
  fold n1 in H1.
  assert (H2 : fill t l2 (filled_world t h n1 rd w0) =
               Returned (draws (length l2) (draws n1 rd).2).1
                 (filled_world t h (length l2) (draws n1 rd).2
                    (filled_world t h n1 rd w0))).
  { apply fill_with_source; simpl; [done | by rewrite lookup_insert_eq]. }
  eexists _, _, _, _. split; [exact H1 |]. split; [exact H2 |].
  change ((x :: l1) ++ l2) with (x :: (l1 ++ l2)).
  rewrite (fill_after_acquisition t x (l1 ++ l2) w h w0 rd Hget Hdev).
  rewrite length_app.
  change (S (length l1 + length l2)) with (n1 + length l2)%nat.
  by rewrite filled_world_add, draws_add.
Qed.

(** X10: [return *csrng] is safe: in every world a process can reach,
    [get_csrng] never dereferences an empty slot, and the reference it
    returns is to the live device in the slot of the calling thread; the
    world it returns in can be reached as well. *)
Theorem get_csrng_returns_live_device t w :
  reachable w →
  get_csrng t w ≠ Undefined
  ∧ ∀ h w1, get_csrng t w = Returned h w1 →
      csrng w1 !! t = Some h ∧ is_Some (devices w1 !! h) ∧ reachable w1.
Proof.
  intros Hreach. pose proof (wf_reachable w Hreach) as Hwf. split.
  - destruct (get_csrng_cases t w)
      as [(h & _ & ->) | [(_ & rd & rest & _ & ->) | (_ & _ & ->)]];
      try done.
    unfold failure. by destruct have_noexcept.
  - intros h w1 Hget. pose proof (get_csrng_slot _ _ _ _ Hget) as Hslot.
    assert (Hreach1 : reachable w1).
    { destruct Hreach as [answers Hrun]. exists answers.
      eapply rtc_r; [exact Hrun |].
      apply (step_call _ t call_get_csrng). simpl. by rewrite Hget. }
    split; [done |]. split; [| done].
    by eapply (wf_live w1 (wf_reachable w1 Hreach1)).
Qed.

(** X11: the jitter threshold: for an expiration that is not negative and
    a nonzero ratio, [milliseconds(expiration) / ratio] is zero exactly
    when the expiration is shorter than [ratio] milliseconds; below that
    [duration] returns the expiration as it is, from it on the limit is at
    least one millisecond. *)
Theorem duration_jitter_threshold t expiration ratio w :
  0 ≤ expiration → is_uint8 ratio → ratio ≠ 0 →
  ((expiration `quot` ticks_per_ms) `quot` ratio = 0
   ↔ expiration < ratio * ticks_per_ms)
  ∧ (expiration < ratio * ticks_per_ms →
     duration t expiration ratio w = Returned expiration w)
  ∧ (ratio * ticks_per_ms ≤ expiration →
     1 ≤ (expiration `quot` ticks_per_ms) `quot` ratio).
Proof.
  intros Hexp Hratio Hnz. unfold is_uint8 in Hratio.
  pose proof (limit_zero_iff expiration ratio Hexp ltac:(lia)) as Hiff.
  pose proof ticks_per_ms_pos as Htpm.
  split; [done |]. split.
  - intros Hshort. apply duration_degenerate. right. by apply Hiff.
  - intros Hlong.
    assert (0 ≤ (expiration `quot` ticks_per_ms) `quot` ratio).
    { rewrite (Z.quot_div_nonneg expiration) by lia.
      rewrite Z.quot_div_nonneg by (try apply Z.div_pos; lia).
      apply Z.div_pos; [apply Z.div_pos |]; lia. }
    destruct (decide ((expiration `quot` ticks_per_ms) `quot` ratio = 0))
      as [Hz | Hz]; [apply Hiff in Hz |]; lia.
Qed.

End properties.

(** * Runs on the tape toolchain

    [noexcept_build] has [NOEXCEPT] as [noexcept], [plain_build] has it
    empty; both count the steady clock in nanoseconds. *)

Definition noexcept_build : Toolchain := tape_toolchain true.
Definition plain_build : Toolchain := tape_toolchain false.

Section runs.
#[local] Existing Instance noexcept_build.

(** Thread 1 made its first call: it has the device at address 1. *)
Definition one_thread_world : world :=
  constructed_world 1%nat [7; 300] [Some [9]] (initial [Some [7; 300]; Some [9]]).

Lemma one_thread_world_reachable : reachable one_thread_world.
Proof.
  exists [Some [7; 300]; Some [9]].
  apply rtc_once. by apply (step_call _ 1%nat call_get_csrng).
Qed.

(** The examples of the specification: 10 s with ratio 4 give a limit of
    2500 ms and a result between 7.5 s and 10 s; 5 ms with ratio 10 give a
    limit of 0 and 5 ms back. *)
Example duration_largest_offset :
  ∃ w', duration 1%nat 10000000000 4 (initial [Some [2500]])
        = Returned 7500000000 w'.
Proof. by eexists. Qed.

Example duration_no_offset :
  ∃ w', duration 1%nat 10000000000 4 (initial [Some [0]])
        = Returned 10000000000 w'.
Proof. by eexists. Qed.

Example duration_no_jitter :
  duration 1%nat 5000000 10 (initial []) = Returned 5000000 (initial []).
Proof. reflexivity. Qed.

(** Three bytes from the words 2500, 3 and 256; a second thread gets a
    device of its own. *)
Example fill_three_bytes :
  ∃ w', fill 1%nat [9; 9; 9] (initial [Some [2500; 3; 256]])
        = Returned [196; 3; 0] w'
    ∧ trace w' = [Constructed 1%nat 1%positive; Drawn 1%nat 1%positive;
                  Drawn 1%nat 1%positive; Drawn 1%nat 1%positive].
Proof. by eexists. Qed.

Example next_on_second_thread :
  ∃ w', next 2%nat one_thread_world = Returned 9 w'
    ∧ csrng w' !! 1%nat = Some 1%positive
    ∧ csrng w' !! 2%nat = Some 2%positive.
Proof. by eexists. Qed.

Lemma grants_available t rd rest :
  source_available t (initial (Some rd :: rest)).
Proof. right. by exists rd, rest. Qed.

Lemma next_in_requested_range_witness :
  (is_uint8 10 ∧ is_uint8 20 ∧ 10 ≤ 20 ∧ wf (initial [Some [300]])
   ∧ source_available 1%nat (initial [Some [300]]))
  ∧ ∃ v w', next_range 1%nat 10 20 (initial [Some [300]]) = Returned v w'
      ∧ 10 ≤ v ≤ 20.
Proof.
  assert (H10 : is_uint8 10) by (unfold is_uint8; lia).
  assert (H20 : is_uint8 20) by (unfold is_uint8; lia).
  assert (Hle : 10 ≤ 20) by lia.
  pose proof (wf_initial [Some [300]]) as Hwf.
  pose proof (grants_available 1%nat [300] []) as Hav.
  split; [done |].
  exact (next_in_requested_range 1%nat 10 20 _ H10 H20 Hle Hwf Hav).
Defined.

Lemma next_single_value_witness :
  (is_uint8 255 ∧ wf (initial [Some [300]])
   ∧ source_available 1%nat (initial [Some [300]]))
  ∧ ∃ w', next_range 1%nat 255 255 (initial [Some [300]]) = Returned 255 w'.
Proof.
  assert (H255 : is_uint8 255) by (unfold is_uint8; lia).
  pose proof (wf_initial [Some [300]]) as Hwf.
  pose proof (grants_available 1%nat [300] []) as Hav.
  split; [done |].
  exact (next_single_value 1%nat 255 _ H255 Hwf Hav).
Defined.

Lemma next_narrowing_keeps_the_draw_witness :
  (is_uint8 0 ∧ is_uint8 255 ∧ 0 ≤ 255 ∧ wf (initial [Some [511]])
   ∧ source_available 1%nat (initial [Some [511]]))
  ∧ ∃ w', next_range 1%nat 0 255 (initial [Some [511]]) = Returned 255 w'
      ∧ to_uint8 255 = 255.
Proof.
  assert (H0 : is_uint8 0) by (unfold is_uint8; lia).
  assert (H255 : is_uint8 255) by (unfold is_uint8; lia).
  assert (Hle : 0 ≤ 255) by lia.
  pose proof (wf_initial [Some [511]]) as Hwf.
  pose proof (grants_available 1%nat [511] []) as Hav.
  split; [done |].
  destruct (next_narrowing_keeps_the_draw 1%nat 0 255 _ H0 H255 Hle Hwf Hav)
    as (h & w1 & rd & w' & _ & Hget & Hdev & _ & _ & _ & _ & Hnext).
  exists w'. split; [| reflexivity].
  rewrite Hnext. f_equal.
  assert (Hrd : Some rd = Some [511]) by (by rewrite <- Hdev; injection Hget as <- <-).
  injection Hrd as ->. reflexivity.
Defined.

Lemma fill_overwrites_every_element_witness :
  (wf (initial [Some [2500; 3; 256]])
   ∧ ([9; 9; 9] ≠ [] → source_available 1%nat (initial [Some [2500; 3; 256]])))
  ∧ ∃ bytes w',
      fill 1%nat [9; 9; 9] (initial [Some [2500; 3; 256]]) = Returned bytes w'
      ∧ length bytes = 3%nat
      ∧ Forall is_uint8 bytes
      ∧ count (draws_on 1%nat) (trace w') = 3%nat.
Proof.
  pose proof (wf_initial [Some [2500; 3; 256]]) as Hwf.
  assert (Hav : [9; 9; 9] ≠ [] →
                source_available 1%nat (initial [Some [2500; 3; 256]]))
    by (intros _; apply grants_available).
  split; [done |].
  destruct (fill_overwrites_every_element 1%nat [9; 9; 9] _ Hwf Hav)
    as (bytes & w' & Hfill & Hlen & Hbytes & Hcount & _).
  exists bytes, w'. done.
Defined.

Lemma duration_degenerate_returns_expiration_witness :
  (0 ≤ 5000000 ∧ is_uint8 10 ∧ is_uint8 0
   ∧ (10 = 0 ∨ (10 ≠ 0 ∧ (5000000 `quot` ticks_per_ms) `quot` 10 = 0))
   ∧ (0 = 0 ∨ (0 ≠ 0 ∧ (5000000 `quot` ticks_per_ms) `quot` 0 = 0)))
  ∧ (∃ w', duration 1%nat 5000000 10 (initial []) = Returned 5000000 w')
  ∧ (∃ w', duration 1%nat 5000000 0 (initial []) = Returned 5000000 w').
Proof.
  assert (Hexp : 0 ≤ 5000000) by lia.
  assert (H10 : is_uint8 10) by (unfold is_uint8; lia).
  assert (H0 : is_uint8 0) by (unfold is_uint8; lia).
  assert (Hdeg : 10 = 0
                 ∨ (10 ≠ 0 ∧ (5000000 `quot` ticks_per_ms) `quot` 10 = 0))
    by (right; split; [lia | reflexivity]).
  assert (Hzero : 0 = 0
                  ∨ (0 ≠ 0 ∧ (5000000 `quot` ticks_per_ms) `quot` 0 = 0))
    by (left; reflexivity).
  split; [done |]. split.
  - exact (duration_degenerate_returns_expiration 1%nat _ 10 _ Hexp H10 Hdeg).
  - exact (duration_degenerate_returns_expiration 1%nat _ 0 _ Hexp H0 Hzero).
Defined.

Lemma duration_degenerate_draws_no_entropy_witness :
  (10 = 0 ∨ (5000000 `quot` ticks_per_ms) `quot` 10 = 0)
  ∧ ∃ w', duration 1%nat 5000000 10 one_thread_world = Returned 5000000 w'
      ∧ csrng w' = csrng one_thread_world
      ∧ devices w' = devices one_thread_world
      ∧ os w' = os one_thread_world
      ∧ trace w' = trace one_thread_world
      ∧ count (draws_on 1%nat) (trace w')
        = count (draws_on 1%nat) (trace one_thread_world)
      ∧ count (constructs 1%nat) (trace w')
        = count (constructs 1%nat) (trace one_thread_world).
Proof.
  assert (Hdeg : 10 = 0 ∨ (5000000 `quot` ticks_per_ms) `quot` 10 = 0)
    by (right; reflexivity).
  split; [done |].
  exact (duration_degenerate_draws_no_entropy 1%nat 5000000 10 _ Hdeg).
Defined.

(** Thread 2 made its first call after thread 1: it has the device at
    address 2. *)
Definition two_thread_world : world :=
  constructed_world 2%nat [9] [] one_thread_world.

Lemma two_thread_world_reachable : reachable two_thread_world.
Proof.
  destruct one_thread_world_reachable as [answers Hrun].
  exists answers. eapply rtc_r; [exact Hrun |].
  by apply (step_call _ 2%nat call_get_csrng).
Qed.

Lemma duration_within_whole_milliseconds_witness :
  (0 ≤ 10000500000 < 2 ^ 63 ∧ is_uint8 4 ∧ 4 ≠ 0
   ∧ (10000500000 `quot` ticks_per_ms) `quot` 4 ≠ 0
   ∧ wf (initial [Some [2500]])
   ∧ source_available 1%nat (initial [Some [2500]]))
  ∧ ∃ result w',
      duration 1%nat 10000500000 4 (initial [Some [2500]]) = Returned result w'
      ∧ result `mod` 1000000 = 0
      ∧ (10000 - 2500) * 1000000 ≤ result ≤ 10000 * 1000000
      ∧ 0 ≤ result ≤ 10000500000
      ∧ 10000500000 - 2500 * 1000000 - 1000000 < result
      ∧ (10000500000 `mod` 1000000 = 0 →
         10000500000 - 2500 * 1000000 ≤ result).
Proof.
  assert (Hexp : 0 ≤ 10000500000 < 2 ^ 63) by lia.
  assert (H4 : is_uint8 4) by (unfold is_uint8; lia).
  assert (Hnz : 4 ≠ 0) by lia.
  assert (Hlimit : (10000500000 `quot` ticks_per_ms) `quot` 4 ≠ 0)
    by (vm_compute; discriminate).
  pose proof (wf_initial [Some [2500]]) as Hwf.
  pose proof (grants_available 1%nat [2500] []) as Hav.
  split; [done |].
  exact (duration_within_whole_milliseconds 1%nat 10000500000 4 _
           Hexp H4 Hnz Hlimit Hwf Hav).
Defined.

(** C1 as the specification states it fails for an expiration with a part below the
    millisecond: 10000.5 ms with ratio 4 has [limit = 2500], and a draw of
    2500 gives 7500 ms, half a millisecond below [expiration - limit]. *)
Lemma duration_below_expiration_minus_limit :
  (0 ≤ 10000500000 ∧ 4 ≠ 0
   ∧ (10000500000 `quot` ticks_per_ms) `quot` 4 = 2500)
  ∧ ∃ w',
      duration 1%nat 10000500000 4 (initial [Some [2500]])
      = Returned 7500000000 w'
      ∧ ¬ (10000500000 - 2500 * ticks_per_ms ≤ 7500000000 ≤ 10000500000).
Proof.
  split; [split; [lia | split; [lia | reflexivity]] |].
  eexists. split; [reflexivity |].
  change ticks_per_ms with 1000000. lia.
Qed.

Lemma failed_acquisition_is_final_witness :
  (csrng (initial (TC := plain_build) [None; Some [7]]) !! 1%nat = None
   ∧ os_refuses (initial (TC := plain_build) [None; Some [7]]))
  ∧ next 1%nat (initial (TC := plain_build) [None; Some [7]])
    = Thrown ResourceExhausted (initial (TC := plain_build) [Some [7]])
  ∧ fill 1%nat [0; 0] (initial (TC := plain_build) [None; Some [7]])
    = Thrown ResourceExhausted (initial (TC := plain_build) [Some [7]]).
Proof.
  assert (Hslot : csrng (initial (TC := plain_build) [None; Some [7]]) !! 1%nat
                  = None) by reflexivity.
  assert (Hos : os_refuses (initial (TC := plain_build) [None; Some [7]]))
    by (right; by eexists).
  split; [done |].
  destruct (failed_acquisition_is_final (TC := plain_build) 1%nat _ Hslot Hos)
    as (_ & _ & Hnext & _ & _ & Hfill & _).
  split; [exact Hnext | by apply Hfill].
Defined.

(** C2 as the specification states it fails where [NOEXCEPT] is [noexcept]: the
    refusal ends the process, no exception reaches the caller.  The grant
    that follows the refusal in the answers of the operating system is
    never asked for. *)
Lemma failed_acquisition_terminates :
  (csrng (initial [None; Some [7]]) !! 1%nat = None
   ∧ os_refuses (initial [None; Some [7]]))
  ∧ next 1%nat (initial [None; Some [7]]) = Terminated (initial [Some [7]])
  ∧ ∀ e w', next 1%nat (initial [None; Some [7]]) ≠ Thrown e w'.
Proof.
  split; [split; [reflexivity | right; by eexists] |].
  split; [reflexivity | done].
Qed.

Lemma one_entropy_source_per_thread_witness :
  reachable one_thread_world
  ∧ (live_sources 1%nat (trace one_thread_world) ≤ 1)%nat
  ∧ get_csrng 1%nat one_thread_world = Returned 1%positive one_thread_world
  ∧ trace (thread_exit 1%nat one_thread_world)
    = trace one_thread_world ++ [Deleted 1%nat 1%positive]
  ∧ live_sources 1%nat (trace (thread_exit 1%nat one_thread_world)) = 0%nat.
Proof.
  pose proof one_thread_world_reachable as Hreach.
  split; [done |].
  destruct (one_entropy_source_per_thread 1%nat _ Hreach)
    as (Hle & _ & _ & _ & Hexit & _).
  split; [exact Hle |].
  destruct (Hexit 1%positive ltac:(reflexivity))
    as (Hget & _ & _ & Htrace & Hlive & _).
  done.
Defined.

Lemma threads_never_share_a_source_witness :
  (reachable two_thread_world ∧ 1%nat ≠ 2%nat)
  ∧ csrng two_thread_world !! 1%nat = Some 1%positive
  ∧ csrng two_thread_world !! 2%nat = Some 2%positive
  ∧ 1%positive ≠ 2%positive
  ∧ ∀ c w', run 1%nat c two_thread_world = Some w' →
      csrng w' !! 2%nat = Some 2%positive
      ∧ devices w' !! 2%positive = devices two_thread_world !! 2%positive.
Proof.
  pose proof two_thread_world_reachable as Hreach.
  assert (Hne : 1%nat ≠ 2%nat) by lia.
  split; [done |].
  destruct (threads_never_share_a_source 1%nat 2%nat _ Hreach Hne)
    as (Hdistinct & Hframe & _).
  assert (H1 : csrng two_thread_world !! 1%nat = Some 1%positive)
    by reflexivity.
  assert (H2 : csrng two_thread_world !! 2%nat = Some 2%positive)
    by reflexivity.
  split; [done |]. split; [done |].
  split; [by apply Hdistinct |].
  intros c w' Hrun. destruct (Hframe c w' Hrun) as (Hslot & Hdev & _).
  split; [by rewrite Hslot | by apply Hdev].
Defined.

(** ** Runs for the further properties *)

Lemma one_thread_world_wf : wf one_thread_world.
Proof. apply wf_reachable, one_thread_world_reachable. Qed.

Lemma one_thread_world_available : source_available 1%nat one_thread_world.
Proof. left. by eexists. Qed.

Lemma calls_draw_their_cost_witness :
  (wf one_thread_world ∧ source_available 1%nat one_thread_world
   ∧ valid_call (call_duration 10000500000 4))
  ∧ ∃ w', returns 1%nat (call_duration 10000500000 4) one_thread_world
          = Some w'
      ∧ count (draws_on 1%nat) (trace w')
        = (count (draws_on 1%nat) (trace one_thread_world) + 1)%nat.
Proof.
  pose proof one_thread_world_wf as Hwf.
  pose proof one_thread_world_available as Hav.
  assert (Hvalid : valid_call (call_duration 10000500000 4))
    by (unfold valid_call, is_uint8; lia).
  split; [done |].
  exact (calls_draw_their_cost 1%nat (call_duration 10000500000 4) _
           Hwf Hav Hvalid).
Defined.

Lemma duration_subtracts_whole_milliseconds_witness :
  (0 ≤ 10000500000 < 2 ^ 63 ∧ is_uint8 4 ∧ 4 ≠ 0
   ∧ (10000500000 `quot` ticks_per_ms) `quot` 4 ≠ 0
   ∧ wf (initial [Some [1000]])
   ∧ source_available 1%nat (initial [Some [1000]]))
  ∧ ∃ w', duration 1%nat 10000500000 4 (initial [Some [1000]])
          = Returned ((10000 - 1000) * 1000000) w'
      ∧ ((10000 - 1000) * 1000000) `mod` 1000000 = 0.
Proof.
  assert (Hexp : 0 ≤ 10000500000 < 2 ^ 63) by lia.
  assert (H4 : is_uint8 4) by (unfold is_uint8; lia).
  assert (Hnz : 4 ≠ 0) by lia.
  assert (Hlimit : (10000500000 `quot` ticks_per_ms) `quot` 4 ≠ 0)
    by (vm_compute; discriminate).
  pose proof (wf_initial [Some [1000]]) as Hwf.
  pose proof (grants_available 1%nat [1000] []) as Hav.
  split; [done |].
  destruct (duration_subtracts_whole_milliseconds 1%nat 10000500000 4 _
              Hexp H4 Hnz Hlimit Hwf Hav)
    as (h & w1 & rd & w' & Hget & Hdev & _ & Hd & _ & _).
  exists w'. split; [| reflexivity].
  rewrite Hd. f_equal.
  assert (Hrd : Some rd = Some [1000])
    by (by rewrite <- Hdev; injection Hget as <- <-).
  injection Hrd as ->. reflexivity.
Defined.

Lemma devices_owned_by_one_thread_witness :
  reachable two_thread_world
  ∧ (is_Some (devices two_thread_world !! 2%positive)
     ↔ ∃ t, csrng two_thread_world !! t = Some 2%positive
         ∧ ∀ t', csrng two_thread_world !! t' = Some 2%positive → t' = t).
Proof.
  pose proof two_thread_world_reachable as Hreach.
  split; [done |].
  exact (devices_owned_by_one_thread _ 2%positive Hreach).
Defined.

Lemma never_deleted_twice_witness :
  reachable two_thread_world
  ∧ (count (is_event (Deleted 1%nat 1%positive)) (trace two_thread_world)
     ≤ count (is_event (Constructed 1%nat 1%positive))
         (trace two_thread_world))%nat
  ∧ count (is_event (Constructed 1%nat 1%positive)) (trace two_thread_world)
    = S (count (is_event (Deleted 1%nat 1%positive))
           (trace two_thread_world)).
Proof.
  pose proof two_thread_world_reachable as Hreach.
  split; [done |].
  destruct (never_deleted_twice 1%nat 1%positive _ Hreach)
    as (Hle & _ & Hslot & _).
  split; [exact Hle |]. by apply Hslot.
Defined.

Lemma calls_with_source_leave_os_alone_witness :
  (csrng one_thread_world !! 1%nat = Some 1%positive
   ∧ run 1%nat call_next one_thread_world
     = Some (drawn_world 1%nat 1%positive [300] one_thread_world))
  ∧ os (drawn_world 1%nat 1%positive [300] one_thread_world)
    = os one_thread_world
  ∧ dom (devices (drawn_world 1%nat 1%positive [300] one_thread_world))
    = dom (devices one_thread_world).
Proof.
  assert (Hslot : csrng one_thread_world !! 1%nat = Some 1%positive)
    by reflexivity.
  assert (Hrun : run 1%nat call_next one_thread_world
                 = Some (drawn_world 1%nat 1%positive [300] one_thread_world))
    by reflexivity.
  split; [done |].
  destruct (calls_with_source_leave_os_alone 1%nat 1%positive call_next
              _ _ Hslot Hrun) as (_ & Hos & Hdom & _).
  done.
Defined.

Lemma failed_acquisition_can_be_repeated_witness :
  (have_noexcept (Toolchain := plain_build) = false
   ∧ wf (initial (TC := plain_build) [None; Some [7]])
   ∧ csrng (initial (TC := plain_build) [None; Some [7]]) !! 1%nat = None
   ∧ os_refuses (initial (TC := plain_build) [None; Some [7]])
   ∧ os_grants (refused_world (initial (TC := plain_build) [None; Some [7]])))
  ∧ next 1%nat (initial (TC := plain_build) [None; Some [7]])
    = Thrown ResourceExhausted
        (refused_world (initial (TC := plain_build) [None; Some [7]]))
  ∧ ∃ v w2,
      next 1%nat (refused_world (initial (TC := plain_build) [None; Some [7]]))
      = Returned v w2
      ∧ is_uint8 v ∧ is_Some (csrng w2 !! 1%nat).
Proof.
  assert (Hplain : have_noexcept (Toolchain := plain_build) = false)
    by reflexivity.
  pose proof (wf_initial (TC := plain_build) [None; Some [7]]) as Hwf.
  assert (Hslot : csrng (initial (TC := plain_build) [None; Some [7]]) !! 1%nat
                  = None) by reflexivity.
  assert (Hos : os_refuses (initial (TC := plain_build) [None; Some [7]]))
    by (right; by eexists).
  assert (Hgrant : os_grants
                     (refused_world
                        (initial (TC := plain_build) [None; Some [7]])))
    by (by eexists _, _).
  split; [done |].
  destruct (failed_acquisition_can_be_repeated (TC := plain_build) 1%nat _
              Hplain Hwf Hslot Hos Hgrant) as (Hthrown & _ & _ & Hagain).
  done.
Defined.

Lemma fill_in_two_parts_witness :
  (wf (initial [Some [2500; 3; 256]])
   ∧ source_available 1%nat (initial [Some [2500; 3; 256]]))
  ∧ ∃ b1 w1 b2 w2,
      fill 1%nat [9] (initial [Some [2500; 3; 256]]) = Returned b1 w1
      ∧ fill 1%nat [9; 9] w1 = Returned b2 w2
      ∧ fill 1%nat ([9] ++ [9; 9]) (initial [Some [2500; 3; 256]])
        = Returned (b1 ++ b2) w2.
Proof.
  pose proof (wf_initial [Some [2500; 3; 256]]) as Hwf.
  pose proof (grants_available 1%nat [2500; 3; 256] []) as Hav.
  split; [done |].
  exact (fill_in_two_parts 1%nat [9] [9; 9] _ Hwf Hav).
Defined.

Lemma get_csrng_returns_live_device_witness :
  reachable one_thread_world
  ∧ get_csrng 1%nat one_thread_world ≠ Undefined
  ∧ is_Some (devices one_thread_world !! 1%positive).
Proof.
  pose proof one_thread_world_reachable as Hreach.
  split; [done |].
  destruct (get_csrng_returns_live_device 1%nat _ Hreach) as (Hdef & Hlive).
  split; [exact Hdef |].
  destruct (Hlive 1%positive one_thread_world ltac:(reflexivity))
    as (_ & Hdev & _).
  exact Hdev.
Defined.

Lemma duration_jitter_threshold_witness :
  (0 ≤ 9999999 ∧ is_uint8 10 ∧ 10 ≠ 0)
  ∧ ((9999999 `quot` ticks_per_ms) `quot` 10 = 0
     ↔ 9999999 < 10 * ticks_per_ms)
  ∧ duration 1%nat 9999999 10 (initial []) = Returned 9999999 (initial []).
Proof.
  assert (Hexp : 0 ≤ 9999999) by lia.
  assert (H10 : is_uint8 10) by (unfold is_uint8; lia).
  assert (Hnz : 10 ≠ 0) by lia.
  split; [done |].
  destruct (duration_jitter_threshold 1%nat 9999999 10 (initial [])
              Hexp H10 Hnz) as (Hiff & Hshort & _).
  split; [exact Hiff |]. apply Hshort. reflexivity.
Defined.

End runs.
